(** * A shallow embedding of the toy Bitcask key/value store (bitcask.h, bitcask.cc)

    The store appends records to a segment file and keeps an in-memory
    KeyDir from keys to the position of their latest value.

    Modelling choices, all visible in the definitions below:
    - The platform is LP64 and little-endian: the size of a pointer, [sizeof(size_t)]
      and [sizeof(int64_t)] are all 8, which is what makes the
      [sizeof(target)] of [ReadToTarget]/[WriteToTarget] (the size of a
      pointer) agree with the size of the objects they move.
    - [std::string] is a sequence of bytes: [list byte].
    - [int64_t] and [size_t] values are [Z]; the wrap-around happens where
      the code stores them in 8 bytes ([le_split 8]) and reads them back.
      Stream offsets ([std::streamoff]) are [Z] without wrap-around: a file
      stays below 2^63 bytes.
    - The clock ([NowToMicros]) is an input: every operation that reads it
      takes the reading as an argument.
    - The storage directory is a finite map from file names to contents;
      the order in which [fs::directory_iterator] yields the entries is
      unspecified, so it is an argument of [Open].
    - [std::string::resize] throws [std::length_error] above [max_size()];
      nothing catches it, so [operator>>] and [Open] have two outcomes:
      they return or they throw.
    - Storage exhaustion ([std::bad_alloc], the stack of [Get]) and failing
      I/O on an opened file are outside the model. *)

From Stdlib Require Import ZArith Lia List.
From Stdlib Require Import Strings.Byte Strings.Ascii Strings.String.
From coqutil Require Import Word.LittleEndianList Byte.
From stdpp Require Import gmap strings list fin_maps pretty sorting.

#[local] Open Scope Z_scope.

(** ** Bytes and machine integers *)

#[global] Instance byte_eq_dec : EqDecision byte := Byte.byte_eq_dec.

#[global] Program Instance byte_countable : Countable byte :=
  inj_countable Byte.to_N Byte.of_N _.
Next Obligation. intros b. apply Byte.of_to_N. Qed.

(** The bytes of a string literal. *)
Definition str (s : string) : list byte := String.list_byte_of_string s.

(** [sizeof(target)] for a pointer [target], as [ReadToTarget] and
    [WriteToTarget] take it, and the sizes of the two integer types. *)
Definition word_size : nat := 8%nat.
Definition sizeof_int64_t : nat := 8%nat.
Definition sizeof_size_t : nat := 8%nat.

(** Reading 8 bytes as an [int64_t]: two's complement. *)
Definition to_int64 (u : Z) : Z :=
  if decide (u < 2 ^ 63) then u else u - 2 ^ 64.

Definition int64_range (z : Z) : Prop := - 2 ^ 63 <= z < 2 ^ 63.

#[global] Instance int64_range_dec z : Decision (int64_range z).
Proof. unfold int64_range. apply _. Defined.

(** [std::string::max_size()], as libstdc++ has it on this platform. *)
Definition max_size : Z := 2 ^ 62 - 1.

(** ** What a call can end with

    The exception the program can meet and does not catch, and the two
    ways a call ends. *)

Inductive exception : Type := length_error.

Inductive outcome (A : Type) : Type :=
  | Returns (a : A)
  | Throws (e : exception).

Arguments Returns {A} a.
Arguments Throws {A} e.

#[global] Instance exception_eq_dec : EqDecision exception.
Proof. solve_decision. Defined.

#[global] Instance outcome_eq_dec {A} `{EqDecision A} : EqDecision (outcome A).
Proof. solve_decision. Defined.

#[global] Instance outcome_ret : MRet outcome := @Returns.

#[global] Instance outcome_bind : MBind outcome := fun A B f m =>
  match m with
  | Returns a => f a
  | Throws e => Throws e
  end.

#[global] Instance outcome_fmap : FMap outcome := fun A B f m =>
  match m with
  | Returns a => Returns (f a)
  | Throws e => Throws e
  end.

(** ** Constants of the anonymous namespace *)

Definition kTombstoneValue : list byte := str "rdbc_tombstone".
Definition kCaskSuffix : string := ".cask".

(** ** The two structs of [class Bitcask] *)

Module KeyDirEntry.
Record t : Type := Build {
  file_id : string;
  value_sz : Z;
  value_pos : Z;
  timestamp : Z
}.

#[global] Instance eq_dec : EqDecision t.
Proof. solve_decision. Defined.
End KeyDirEntry.

Module CaskEntry.
Record t : Type := Build {
  timestamp : Z;
  key_sz : Z;
  value_sz : Z;
  key : list byte;
  value : list byte
}.

#[global] Instance eq_dec : EqDecision t.
Proof. solve_decision. Defined.

(** [CaskEntry entry;] default member initialisers. *)
Definition init : t := Build 0 0 0 [] [].

(** [std::streamoff CaskEntry::ValueOffset()]. *)
Definition ValueOffset (e : t) : Z :=
  Z.of_nat sizeof_int64_t + Z.of_nat sizeof_size_t + Z.of_nat sizeof_size_t
  + Z.of_nat (length (key e)).
End CaskEntry.

Abbreviation KeyDirMap := (gmap (list byte) KeyDirEntry.t).
Abbreviation Disk := (gmap string (list byte)).

(** ** Input streams

    An [std::istream] over a file: the contents, the get position and the
    error state.  [read] sets [eofbit] and [failbit] together, so one flag
    is enough. *)

Record istream : Type := Istream {
  is_data : list byte;
  is_pos : nat;
  is_fail : bool
}.

(** [input.read(p, count)]: nothing happens on a failed stream; otherwise
    the available characters, at most [count], are stored at [p], and the
    stream fails when fewer than [count] were available.  The result is the
    characters stored. *)
Definition istream_read (count : nat) (s : istream) : list byte * istream :=
  if is_fail s then ([], s)
  else
    let avail := drop (is_pos s) (is_data s) in
    if decide (count <= length avail)%nat
    then (take count avail, Istream (is_data s) (is_pos s + count) false)
    else (avail, Istream (is_data s) (is_pos s + length avail) true).

(** [input.tellg()]. *)
Definition tellg (s : istream) : Z :=
  if is_fail s then -1 else Z.of_nat (is_pos s).

(** [std::ifstream f(path, std::ios::binary)]: a file that does not exist
    gives a failed stream. *)
Definition ifstream (disk : Disk) (path : string) : istream :=
  match disk !! path with
  | Some data => Istream data 0 false
  | None => Istream [] 0 true
  end.

(** [input.seekg(pos)]. *)
Definition seekg (pos : Z) (s : istream) : istream :=
  if is_fail s then s
  else if decide (pos < 0) then Istream (is_data s) (is_pos s) true
  else Istream (is_data s) (Z.to_nat pos) false.

(** Stream computations thread the stream, and end where an exception is
    thrown. *)
Definition IS (A : Type) : Type := istream -> outcome (A * istream).

Definition is_ret {A} (a : A) : IS A := fun s => Returns (a, s).
Definition is_bind {A B} (m : IS A) (k : A -> IS B) : IS B :=
  fun s =>
    match m s with
    | Returns (a, s') => k a s'
    | Throws e => Throws e
    end.
Definition is_throw {A} (e : exception) : IS A := fun _ => Throws e.
Definition is_read (count : nat) : IS (list byte) :=
  fun s => Returns (istream_read count s).

Notation "x <~ m ;; k" := (is_bind m (fun x => k))
  (at level 100, m at next level, right associativity).

(** The template [ReadToTarget(input, target)] for integers, on the
    object representation of the target: the bytes read replace the first
    bytes of the object, the others stay. *)
Definition ReadToTarget (target : list byte) : IS (list byte) :=
  got <~ is_read word_size ;;
  is_ret (got ++ drop (length got) target).

Definition ReadToTarget_int64 (target : Z) : IS Z :=
  bs <~ ReadToTarget (le_split sizeof_int64_t target) ;;
  is_ret (to_int64 (le_combine bs)).

Definition ReadToTarget_size_t (target : Z) : IS Z :=
  bs <~ ReadToTarget (le_split sizeof_size_t target) ;;
  is_ret (le_combine bs).

(** The overload [ReadToTarget(input, target, size)] for strings: the target is
    cleared and resized to [size] (zero bytes), which throws when [size] is
    above [max_size()], whatever the state of the stream; then it is read
    into. *)
Definition ReadToTarget_string (size : Z) : IS (list byte) :=
  if decide (max_size < size) then is_throw length_error
  else
    got <~ is_read (Z.to_nat size) ;;
    is_ret (got ++ repeat Byte.x00 (Z.to_nat size - length got)).

(** [std::istream& operator>>(std::istream&, Bitcask::CaskEntry&)]. *)
Definition extract (cask_entry : CaskEntry.t) : IS CaskEntry.t :=
  timestamp <~ ReadToTarget_int64 (CaskEntry.timestamp cask_entry) ;;
  key_sz <~ ReadToTarget_size_t (CaskEntry.key_sz cask_entry) ;;
  value_sz <~ ReadToTarget_size_t (CaskEntry.value_sz cask_entry) ;;
  key <~ ReadToTarget_string key_sz ;;
  value <~ ReadToTarget_string value_sz ;;
  is_ret (CaskEntry.Build timestamp key_sz value_sz key value).

(** ** Output streams

    The [std::ofstream] of a store is opened with [trunc] and is the only
    writer of its file: it is modelled by the bytes written to it so far.
    [tellp()] is their number, and [flush()] makes the file hold them. *)

Abbreviation ostream := (list byte).

Definition tellp (output : ostream) : Z := Z.of_nat (length output).

Definition ostream_write (bs : list byte) (output : ostream) : ostream :=
  output ++ bs.

(** The template [WriteToTarget(output, target)]: the first [sizeof(target)]
    bytes of the object, which a little-endian machine lays out from the
    least significant byte on. *)
Definition WriteToTarget (target : Z) (output : ostream) : ostream :=
  ostream_write (le_split word_size target) output.

(** [std::ostream& operator<<(std::ostream&, Bitcask::CaskEntry&)]. *)
Definition insert_entry (cask_entry : CaskEntry.t) (output : ostream) : ostream :=
  let output := WriteToTarget (CaskEntry.timestamp cask_entry) output in
  let output := WriteToTarget (CaskEntry.key_sz cask_entry) output in
  let output := WriteToTarget (CaskEntry.value_sz cask_entry) output in
  let output := ostream_write (CaskEntry.key cask_entry) output in
  ostream_write (CaskEntry.value cask_entry) output.

(** The bytes one record adds to a stream. *)
Definition encode (cask_entry : CaskEntry.t) : list byte :=
  insert_entry cask_entry [].

(** ** File names

    A path inside the storage directory is modelled by its file name. *)

(** The part of [s] from its rightmost period on, if it has one. *)
Fixpoint from_last_period (s : string) : option string :=
  match s with
  | EmptyString => None
  | String c s' =>
      match from_last_period s' with
      | Some ext => Some ext
      | None => if decide (c = "."%char) then Some s else None
      end
  end.

(** [fs::path::extension()] of a file name: from the rightmost period on;
    a period that starts the name does not count, and the special names
    dot and dot-dot have no extension. *)
Definition extension (filename : string) : string :=
  if decide (filename = "..") then EmptyString
  else
    match filename with
    | EmptyString => EmptyString
    | String _ rest => default EmptyString (from_last_period rest)
    end.

(** [std::to_string(NowToMicros()).append(kCaskSuffix)]. *)
Definition segment_name (now : Z) : string := pretty now +:+ kCaskSuffix.

(** ** Recovery: the body of the loop of [Bitcask::Open] *)

(** [existing_key != key_dir.end() &&
     existing_key->second.timestamp >= entry.timestamp]. *)
Definition outdated (existing_key : option KeyDirEntry.t)
    (entry : CaskEntry.t) : bool :=
  match existing_key with
  | Some existing =>
      bool_decide (KeyDirEntry.timestamp existing >= CaskEntry.timestamp entry)
  | None => false
  end.

(** One turn of the [while] body on a record read at [entry_start]. *)
Definition load_entry (cask_file_path : string) (entry_start : Z)
    (entry : CaskEntry.t) (key_dir : KeyDirMap) : KeyDirMap :=
  let existing_key := key_dir !! CaskEntry.key entry in
  if outdated existing_key entry then key_dir
  else if decide (CaskEntry.value entry = kTombstoneValue)
  then delete (CaskEntry.key entry) key_dir
  else <[CaskEntry.key entry :=
           KeyDirEntry.Build cask_file_path (CaskEntry.value_sz entry)
             (entry_start + CaskEntry.ValueOffset entry)
             (CaskEntry.timestamp entry)]> key_dir.

(** [while (entry_start = cask_file.tellg(), cask_file >> entry) { ... }].
    Every turn that does not leave the loop consumes a record header, so
    one more turn than the file has bytes is never reached. *)
Fixpoint replay_loop (fuel : nat) (cask_file_path : string)
    (cask_file : istream) (entry : CaskEntry.t) (key_dir : KeyDirMap)
    : outcome KeyDirMap :=
  match fuel with
  | O => Returns key_dir
  | S fuel' =>
      let entry_start := tellg cask_file in
      match extract entry cask_file with
      | Throws e => Throws e
      | Returns (entry', cask_file') =>
          if is_fail cask_file' then Returns key_dir
          else replay_loop fuel' cask_file_path cask_file' entry'
                 (load_entry cask_file_path entry_start entry' key_dir)
      end
  end.

(** The turns the loop can take on a stream. *)
Definition replay_fuel (cask_file : istream) : nat :=
  S (length (is_data cask_file) - is_pos cask_file).

(** The body of the [for] loop over the directory for one entry. *)
Definition load_file (disk : Disk) (key_dir : KeyDirMap) (filename : string)
    : outcome KeyDirMap :=
  if decide (extension filename = kCaskSuffix)
  then
    let cask_file := ifstream disk filename in
    replay_loop (replay_fuel cask_file) filename cask_file CaskEntry.init key_dir
  else Returns key_dir.

(** The [for] loop over the entries of the directory. *)
Fixpoint load_files (disk : Disk) (key_dir : KeyDirMap)
    (listing : list string) : outcome KeyDirMap :=
  match listing with
  | [] => Returns key_dir
  | filename :: listing' =>
      key_dir' ← load_file disk key_dir filename;
      load_files disk key_dir' listing'
  end.

(** ** The store *)

Record Bitcask : Type := MkBitcask {
  db_path_ : string;
  f_ : ostream;
  key_dir_ : KeyDirMap
}.

(** The store together with the directory it lives in. *)
Abbreviation World := (Bitcask * Disk)%type.

(** The constructor: opening the stream with [trunc] creates or empties the
    file. *)
Definition Bitcask_new (path : string) (key_dir : KeyDirMap) (disk : Disk)
    : World :=
  (MkBitcask path [] key_dir, <[path := []]> disk).

(** [Bitcask::Open] on a directory that exists (the code creates it when
    it does not): [listing] is the order in which the directory iterator
    yields the file names, [now] the clock reading for the name of the new
    segment. *)
Definition Open (listing : list string) (now : Z) (disk : Disk)
    : outcome World :=
  key_dir ← load_files disk ∅ listing;
  Returns (Bitcask_new (segment_name now) key_dir disk).

(** [Bitcask::Put]; [time_us] is the clock reading. *)
Definition Put (time_us : Z) (key value : list byte) (w : World) : World :=
  let '(bc, disk) := w in
  let value_size := Z.of_nat (length value) in
  let cask_entry :=
    CaskEntry.Build time_us (Z.of_nat (length key)) value_size key value in
  let value_pos := tellp (f_ bc) + CaskEntry.ValueOffset cask_entry in
  let f := insert_entry cask_entry (f_ bc) in
  let disk := <[db_path_ bc := f]> disk in
  (MkBitcask (db_path_ bc) f
     (<[key := KeyDirEntry.Build (db_path_ bc) value_size value_pos time_us]>
        (key_dir_ bc)),
   disk).

(** What [Bitcask::Get] does: return the value, throw
    [MissingKeyException], or hand back a buffer that the short read did
    not fill ([got] is the part that was read). *)
Inductive GetResult : Type :=
  | Value (value : list byte)
  | MissingKeyException (key : list byte)
  | ShortRead (got : list byte).

#[global] Instance GetResult_eq_dec : EqDecision GetResult.
Proof. solve_decision. Defined.

(** [Bitcask::Get]. *)
Definition Get (key : list byte) (w : World) : GetResult :=
  let '(bc, disk) := w in
  match key_dir_ bc !! key with
  | None => MissingKeyException key
  | Some key_dir_entry =>
      let input := ifstream disk (KeyDirEntry.file_id key_dir_entry) in
      let input := seekg (KeyDirEntry.value_pos key_dir_entry) input in
      let '(value_data, input) :=
        istream_read (Z.to_nat (KeyDirEntry.value_sz key_dir_entry)) input in
      if is_fail input then ShortRead value_data else Value value_data
  end.

(** [Bitcask::Delete]; [time_us] is the clock reading of the inner [Put]. *)
Definition Delete (time_us : Z) (key : list byte) (w : World) : World :=
  match key_dir_ w.1 !! key with
  | None => w
  | Some _ =>
      let '(bc, disk) := Put time_us key kTombstoneValue w in
      (MkBitcask (db_path_ bc) (f_ bc) (delete key (key_dir_ bc)), disk)
  end.

(** [Bitcask::ListKeys]: the keys in the iteration order of the map. *)
Definition ListKeys (w : World) : list (list byte) :=
  (map_to_list (key_dir_ w.1)).*1.

(** [Bitcask::~Bitcask]: the stream of the store is flushed.  What is left
    is the directory. *)
Definition Bitcask_drop (w : World) : Disk :=
  <[db_path_ w.1 := f_ w.1]> w.2.

(** The constructor of [MissingKeyException]: the message it builds. *)
Definition MissingKeyException_message (key : list byte) : list byte :=
  str "Key '" ++ key ++ str "' not found".

(** What the reader of a [const char*] sees of a string: the characters
    before the first NUL. *)
Fixpoint c_str (s : list byte) : list byte :=
  match s with
  | [] => []
  | b :: s' => if decide (b = Byte.x00) then [] else b :: c_str s'
  end.

(** [MissingKeyException::what()]. *)
Definition MissingKeyException_what (key : list byte) : list byte :=
  c_str (MissingKeyException_message key).

(** * Definitions for the statements

    From here on nothing is a translation of a function of the source:
    these are the notions the lemmas and the claims are stated with. *)

(** ** Sessions: sequences of calls on one store *)

Inductive Op : Type :=
  | OpPut (time_us : Z) (key value : list byte)
  | OpDelete (time_us : Z) (key : list byte).

Definition op_time (o : Op) : Z :=
  match o with OpPut t _ _ => t | OpDelete t _ => t end.

Definition op_key (o : Op) : list byte :=
  match o with OpPut _ k _ => k | OpDelete _ k => k end.

Definition step (w : World) (o : Op) : World :=
  match o with
  | OpPut t k v => Put t k v w
  | OpDelete t k => Delete t k w
  end.

Definition run (ops : list Op) (w : World) : World := foldl step w ops.

(** ** Records and their bytes *)

(** The size of a string the program can hold. *)
Definition string_size (z : Z) : Prop := 0 <= z <= max_size.

#[global] Instance string_size_dec z : Decision (string_size z).
Proof. unfold string_size. apply _. Defined.

(** A record as [Put] builds it: the sizes are those of the strings, which
    are strings the program can hold, the timestamp is an [int64_t]. *)
Definition wf_entry (e : CaskEntry.t) : Prop :=
  int64_range (CaskEntry.timestamp e) /\
  CaskEntry.key_sz e = Z.of_nat (length (CaskEntry.key e)) /\
  CaskEntry.value_sz e = Z.of_nat (length (CaskEntry.value e)) /\
  string_size (CaskEntry.key_sz e) /\
  string_size (CaskEntry.value_sz e).

#[global] Instance wf_entry_dec e : Decision (wf_entry e).
Proof. unfold wf_entry. apply _. Defined.

(** An object whose size fields [resize] accepts: the object the loop of
    [Open] reads into is one, at every turn. *)
Definition sized (e : CaskEntry.t) : Prop :=
  string_size (CaskEntry.key_sz e) /\ string_size (CaskEntry.value_sz e).

#[global] Instance sized_dec e : Decision (sized e).
Proof. unfold sized. apply _. Defined.

(** The last two reads of [operator>>], of the key and the value, once
    the header is read. *)
Definition read_key_value (timestamp key_sz value_sz : Z) : IS CaskEntry.t :=
  key <~ ReadToTarget_string key_sz ;;
  value <~ ReadToTarget_string value_sz ;;
  is_ret (CaskEntry.Build timestamp key_sz value_sz key value).

(** Decoding the front of a byte sequence with [operator>>]: the record and
    the number of bytes consumed, or nothing when the stream failed (the
    short read); or the exception. *)
Definition decode (bs : list byte) : outcome (option (CaskEntry.t * nat)) :=
  '(entry, input) ← extract CaskEntry.init (Istream bs 0 false);
  Returns (if is_fail input then None else Some (entry, is_pos input)).

(** Bytes that start with a header holding a size above [max_size()]: the
    key size, once its 8 bytes are there, or the value size. *)
Definition oversized (bs : list byte) : Prop :=
  (16 <= length bs)%nat /\ max_size < le_combine (take 8 (drop 8 bs)) \/
  (24 <= length bs)%nat /\ max_size < le_combine (take 8 (drop 16 bs)).

#[global] Instance oversized_dec bs : Decision (oversized bs).
Proof. unfold oversized. apply _. Defined.

(** A record read off the layout: a header of three 8-byte fields with
    sizes [resize] accepts, then the key and the value with these sizes. *)
Definition parse (bs : list byte) : option (CaskEntry.t * nat) :=
  let key_sz := le_combine (take 8 (drop 8 bs)) in
  let value_sz := le_combine (take 8 (drop 16 bs)) in
  if decide ((24 <= length bs)%nat /\
             key_sz <= max_size /\ value_sz <= max_size /\
             (24 + Z.to_nat key_sz + Z.to_nat value_sz <= length bs)%nat)
  then Some (CaskEntry.Build
               (to_int64 (le_combine (take 8 bs))) key_sz value_sz
               (take (Z.to_nat key_sz) (drop 24 bs))
               (take (Z.to_nat value_sz) (drop (24 + Z.to_nat key_sz) bs)),
             (24 + Z.to_nat key_sz + Z.to_nat value_sz)%nat)
  else None.

(** ** Segments *)

(** A segment holding the records [es] one after the other. *)
Definition encode_all (es : list CaskEntry.t) : list byte :=
  concat (map encode es).

(** Folding the records [es], the first of which starts at [start], into a
    KeyDir with the body of the loop. *)
Fixpoint fold_records (path : string) (start : nat) (es : list CaskEntry.t)
    (key_dir : KeyDirMap) : KeyDirMap :=
  match es with
  | [] => key_dir
  | e :: es' =>
      fold_records path (start + length (encode e)) es'
        (load_entry path (Z.of_nat start) e key_dir)
  end.

(** The records of a segment with the offsets they start at: what is
    decoded from [bs], which starts at offset [pos] of the segment, up to
    the first bytes that are not a record. *)
Fixpoint parse_all (fuel : nat) (pos : nat) (bs : list byte)
    : list (nat * CaskEntry.t) :=
  match fuel with
  | O => []
  | S fuel' =>
      match parse bs with
      | Some (e, n) => (pos, e) :: parse_all fuel' (pos + n) (drop n bs)
      | None => []
      end
  end.

Definition segment_records (data : list byte) : list (nat * CaskEntry.t) :=
  parse_all (S (length data)) 0 data.

(** The bytes after the last record of [bs] start with an oversized
    header. *)
Fixpoint throws_after (fuel : nat) (bs : list byte) : Prop :=
  match fuel with
  | O => False
  | S fuel' =>
      match parse bs with
      | Some (_, n) => throws_after fuel' (drop n bs)
      | None => oversized bs
      end
  end.

#[global] Instance throws_after_dec fuel bs : Decision (throws_after fuel bs).
Proof.
  revert bs. induction fuel as [|fuel IH]; intros bs; cbn [throws_after];
    [apply _|].
  destruct (parse bs) as [[e n]|]; apply _.
Defined.

Definition segment_throws (data : list byte) : Prop :=
  throws_after (S (length data)) data.

#[global] Instance segment_throws_dec data : Decision (segment_throws data).
Proof. unfold segment_throws. apply _. Defined.

(** The contents of a file of the directory, empty when there is none. *)
Definition contents (disk : Disk) (name : string) : list byte :=
  default [] (disk !! name).

(** The records [Open] decodes from a file of the directory: none when the
    name lacks the suffix. *)
Definition records_in (disk : Disk) (name : string)
    : list (nat * CaskEntry.t) :=
  if decide (extension name = kCaskSuffix)
  then segment_records (contents disk name)
  else [].

(** A file that makes [Open] throw: it has the suffix, and after its last
    record comes an oversized header. *)
Definition throws_in (disk : Disk) (name : string) : Prop :=
  extension name = kCaskSuffix /\ segment_throws (contents disk name).

#[global] Instance throws_in_dec disk name : Decision (throws_in disk name).
Proof. unfold throws_in. apply _. Defined.

(** The keys a file holds records of. *)
Definition keys_in (disk : Disk) (name : string) : list (list byte) :=
  (fun se : nat * CaskEntry.t => CaskEntry.key se.2) <$> records_in disk name.

(** The KeyDir entry the loop stores for the record [r] read at [start] of
    the file [name]. *)
Definition entry_of (name : string) (start : nat) (r : CaskEntry.t)
    : KeyDirEntry.t :=
  KeyDirEntry.Build name (CaskEntry.value_sz r)
    (Z.of_nat start + CaskEntry.ValueOffset r) (CaskEntry.timestamp r).

(** Folding the records of one file, with their offsets, into a KeyDir. *)
Definition fold_file (name : string) (rs : list (nat * CaskEntry.t))
    (key_dir : KeyDirMap) : KeyDirMap :=
  foldl (fun kd '(start, e) => load_entry name (Z.of_nat start) e kd)
    key_dir rs.

(** The KeyDir built from the records of the listed files, and the store
    on it: what [Open] returns when it returns (lemma [Open_outcome]). *)
Definition recovered (listing : list string) (disk : Disk) : KeyDirMap :=
  foldl (fun kd name => fold_file name (records_in disk name) kd) ∅ listing.

Definition opened (listing : list string) (now : Z) (disk : Disk) : World :=
  Bitcask_new (segment_name now) (recovered listing disk) disk.

(** The KeyDir of the store [Open] returns, or what [Open] throws. *)
Definition recovery (listing : list string) (now : Z) (disk : Disk)
    : outcome KeyDirMap :=
  (fun w : World => key_dir_ w.1) <$> Open listing now disk.

(** The records [es] with the offsets they have in a segment where the
    first of them starts at [start]. *)
Fixpoint with_offsets (start : nat) (es : list CaskEntry.t)
    : list (nat * CaskEntry.t) :=
  match es with
  | [] => []
  | e :: es' => (start, e) :: with_offsets (start + length (encode e)) es'
  end.

(** Every entry of the KeyDir names a file that holds the bytes the entry
    points at. *)
Definition readable (w : World) : Prop :=
  forall k e,
    key_dir_ w.1 !! k = Some e ->
    exists data,
      w.2 !! KeyDirEntry.file_id e = Some data /\
      0 <= KeyDirEntry.value_pos e /\
      (Z.to_nat (KeyDirEntry.value_pos e) + Z.to_nat (KeyDirEntry.value_sz e)
         <= length data)%nat.

(** ** Calls and sessions *)

(** The record [Put] builds. *)
Definition put_record (time_us : Z) (key value : list byte) : CaskEntry.t :=
  CaskEntry.Build time_us (Z.of_nat (length key)) (Z.of_nat (length value))
    key value.

(** The KeyDir entry [Put] stores when the stream is at [pos]. *)
Definition put_entry (path : string) (pos : nat) (time_us : Z)
    (key value : list byte) : KeyDirEntry.t :=
  KeyDirEntry.Build path (Z.of_nat (length value))
    (Z.of_nat pos + CaskEntry.ValueOffset (put_record time_us key value))
    time_us.

(** The file of the store holds what was written to its stream. *)
Definition synced (w : World) : Prop :=
  w.2 !! db_path_ w.1 = Some (f_ w.1).

(** The records a call appends to the segment. *)
Definition op_records (o : Op) (w : World) : list CaskEntry.t :=
  match o with
  | OpPut t k v => [put_record t k v]
  | OpDelete t k =>
      match key_dir_ w.1 !! k with
      | Some _ => [put_record t k kTombstoneValue]
      | None => []
      end
  end.

(** The records a session appends to the segment. *)
Fixpoint written (ops : list Op) (w : World) : list CaskEntry.t :=
  match ops with
  | [] => []
  | o :: ops' => op_records o w ++ written ops' (step w o)
  end.

(** The last call of a session on a key. *)
Definition last_op (key : list byte) (ops : list Op) : option Op :=
  last (filter (fun o => op_key o = key) ops).

(** Strings as the program can hold them, clock readings as [int64_t]. *)
Definition op_sized (o : Op) : Prop :=
  int64_range (op_time o) /\
  string_size (Z.of_nat (length (op_key o))) /\
  match o with
  | OpPut _ _ v => string_size (Z.of_nat (length v))
  | OpDelete _ _ => True
  end.

#[global] Instance op_sized_dec o : Decision (op_sized o).
Proof. unfold op_sized. destruct o; apply _. Defined.

(** A [Put] of anything but the tombstone marker, or a [Delete]. *)
Definition op_plain (o : Op) : Prop :=
  match o with
  | OpPut _ _ v => v <> kTombstoneValue
  | OpDelete _ _ => True
  end.

#[global] Instance op_plain_dec o : Decision (op_plain o).
Proof. unfold op_plain. destruct o; apply _. Defined.

(** The clock readings of the calls strictly increase from [lo] on. *)
Fixpoint strictly_after (lo : Z) (ops : list Op) : Prop :=
  match ops with
  | [] => True
  | o :: ops' => lo < op_time o /\ strictly_after (op_time o) ops'
  end.

#[global] Instance strictly_after_dec lo ops : Decision (strictly_after lo ops).
Proof. revert lo. induction ops; simpl; apply _. Defined.


(** A call that stores a value under the key. *)
Definition is_put_on (k : list byte) (o : Op) : Prop :=
  match o with
  | OpPut _ k' _ => k' = k
  | OpDelete _ _ => False
  end.

#[global] Instance is_put_on_dec k o : Decision (is_put_on k o).
Proof. destruct o; simpl; apply _. Defined.

(** A store with one key, for the examples. *)
Definition hello_world : World :=
  Put 1 (str "Hello") (str "val") (opened [] 0 ∅).

(** ** Tactics *)

(** Closing a decidable goal on concrete data by evaluation. *)
Ltac by_decide :=
  match goal with
  | |- ?G => apply (@bool_decide_unpack G _); vm_compute; exact I
  end.

(** * Lemmas *)

(** ** The tests of the repository, run on the model *)

Example test_PutsAndGets :
  (w ← run [OpPut 1 (str "Hello") (str "val");
            OpPut 2 (str "123") (str "something");
            OpPut 3 (str "") (str "empty")] <$> Open [] 0 ∅;
   Returns (Get (str "Hello") w, Get (str "123") w, Get (str "") w,
            Get (str "huh??") w,
            Get (str "Hello") (Put 4 (str "Hello") (str "new_val") w))) =
  Returns (Value (str "val"), Value (str "something"), Value (str "empty"),
           MissingKeyException (str "huh??"), Value (str "new_val")).
Proof. vm_compute. reflexivity. Qed.

Example test_IgnoresTombstonedEntriesOnLoad :
  (w ← run [OpPut 1 (str "Hello") (str "val");
            OpPut 2 (str "Goodbye") (str "another_val");
            OpPut 3 (str "Goodbye") (str "still here!");
            OpDelete 4 (str "Goodbye")] <$> Open [] 0 ∅;
   w' ← Open ["0.cask"%string] 5 w.2;
   Returns (Get (str "Hello") w', Get (str "Goodbye") w')) =
  Returns (Value (str "val"), MissingKeyException (str "Goodbye")).
Proof. vm_compute. reflexivity. Qed.

Example extension_examples :
  extension "1698650000000000.cask" = ".cask"%string /\
  extension "a.b.cask" = ".cask"%string /\
  extension ".cask" = EmptyString /\
  extension "cask" = EmptyString /\
  extension "notes.txt" = ".txt"%string /\
  extension "." = EmptyString /\
  extension ".." = EmptyString.
Proof. vm_compute. auto 10. Qed.

Example test_Deletes :
  (w ← Put 1 (str "Hello") (str "val") <$> Open [] 0 ∅;
   Returns (Get (str "Hello") w,
            Get (str "Hello") (Delete 2 (str "Hello") w))) =
  Returns (Value (str "val"), MissingKeyException (str "Hello")).
Proof. vm_compute. reflexivity. Qed.

Example test_LoadsFromMultipleFiles :
  (w1 ← Put 11 (str "key_0") (str "0") <$> Open [] 10 ∅;
   w2 ← Put 21 (str "key_1") (str "1") <$> Open ["10.cask"%string] 20 w1.2;
   w3 ← Put 31 (str "key_2") (str "2")
          <$> Open ["20.cask"; "10.cask"]%string 30 w2.2;
   w ← Open ["30.cask"; "10.cask"; "20.cask"]%string 40 w3.2;
   Returns (Get (str "key_0") w, Get (str "key_1") w, Get (str "key_2") w)) =
  Returns (Value (str "0"), Value (str "1"), Value (str "2")).
Proof. vm_compute. reflexivity. Qed.

Example test_ListKeys :
  exists w0,
    Open [] 0 ∅ = Returns w0 /\
    ListKeys (run [OpPut 1 (str "Hello") (str "val");
                   OpPut 2 (str "123") (str "something");
                   OpPut 3 (str "123") (str "updated_value");
                   OpPut 4 (str "") (str "empty")] w0)
      ≡ₚ [str "Hello"; str "123"; str ""].
Proof. exists (opened [] 0 ∅). split; [reflexivity|by_decide]. Qed.

(** A segment that ends in a header with a key size above [max_size()]:
    [Open] throws. *)
Example test_oversized_header :
  Open ["1.cask"%string] 2
    {[ "1.cask"%string :=
         encode (CaskEntry.Build 1 1 1 (str "k") (str "v")) ++
         le_split 8 7 ++ le_split 8 (2 ^ 64 - 1) ]} =
  Throws length_error.
Proof. vm_compute. reflexivity. Qed.

(** ** The codec *)

Lemma to_int64_mod (z : Z) :
  int64_range z -> to_int64 (z mod 2 ^ 64) = z.
Proof.
  unfold int64_range, to_int64. intros Hz.
  destruct (decide (0 <= z)) as [Hnn|Hneg].
  - rewrite Z.mod_small by lia. case_decide; lia.
  - replace (z mod 2 ^ 64) with (z + 2 ^ 64).
    + case_decide; lia.
    + apply Z.mod_unique with (q := -1); lia.
Qed.

Lemma encode_eq (e : CaskEntry.t) :
  encode e =
    le_split 8 (CaskEntry.timestamp e) ++ le_split 8 (CaskEntry.key_sz e) ++
    le_split 8 (CaskEntry.value_sz e) ++ CaskEntry.key e ++ CaskEntry.value e.
Proof.
  unfold encode, insert_entry, WriteToTarget, ostream_write, word_size.
  rewrite app_nil_l. by rewrite <- !app_assoc.
Qed.

Lemma insert_entry_encode (e : CaskEntry.t) (output : ostream) :
  insert_entry e output = output ++ encode e.
Proof.
  rewrite encode_eq.
  unfold insert_entry, WriteToTarget, ostream_write, word_size.
  by rewrite <- !app_assoc.
Qed.

Lemma length_encode (e : CaskEntry.t) :
  length (encode e) =
    (24 + length (CaskEntry.key e) + length (CaskEntry.value e))%nat.
Proof. rewrite encode_eq, !length_app, !length_le_split. lia. Qed.

(** *** Reading into an object that holds a size *)

(** A short read replaces the low bytes of a size within [max_size()]:
    the top byte stays, and so does the bound. *)
Lemma partial_read_sized (got : list byte) (x : Z) :
  (length got < 8)%nat -> string_size x ->
  string_size (le_combine (got ++ drop (length got) (le_split 8 x))).
Proof.
  intros Hlen [Hx0 Hx]. unfold string_size, max_size in *.
  rewrite skipn_le_split by lia.
  rewrite le_combine_app, le_combine_split.
  pose proof (le_combine_bound got) as Ha.
  set (a := le_combine got) in *.
  rewrite Z.shiftr_div_pow2, Z.shiftl_mul_pow2 by lia.
  set (b := (x / 2 ^ (8 * Z.of_nat (length got)))
              `mod` 2 ^ (Z.of_nat (8 - length got) * 8)).
  assert (0 <= b <= x / 2 ^ (8 * Z.of_nat (length got))) as Hb.
  { unfold b. split; [apply Z.mod_pos_bound; lia|].
    apply Z.mod_le; [apply Z.div_pos; lia|lia]. }
  pose proof (Z.add_lor_land a (b * 2 ^ (Z.of_nat (length got) * 8))) as Hsum.
  assert (0 <= Z.land a (b * 2 ^ (Z.of_nat (length got) * 8))) as Hland
    by (apply Z.land_nonneg; lia).
  assert (0 <= Z.lor a (b * 2 ^ (Z.of_nat (length got) * 8))) as Hlor
    by (apply Z.lor_nonneg; lia).
  assert (b * 2 ^ (Z.of_nat (length got) * 8) <= x) as Hbx.
  { replace (Z.of_nat (length got) * 8) with (8 * Z.of_nat (length got))
      by lia.
    etransitivity; [apply Z.mul_le_mono_nonneg_r; [lia|apply Hb]|].
    rewrite Z.mul_comm. apply Z.mul_div_le. lia. }
  clearbody a b.
  destruct (length got) as [|[|[|[|[|[|[|[|n]]]]]]]]; [..|lia];
    cbn in *; lia.
Qed.

Lemma le_combine_le_split_sized (x : Z) :
  string_size x -> le_combine (le_split 8 x) = x.
Proof.
  intros [H0 Hmax]. rewrite le_combine_split. apply Z.mod_small.
  unfold max_size in Hmax. lia.
Qed.

(** *** Reading from a stream *)

Section Reading.

(** The contents of the file the stream is on. *)
Variable data : list byte.

Lemma istream_read_ok (count : nat) pos :
  (count <= length (drop pos data))%nat ->
  istream_read count (Istream data pos false) =
    (take count (drop pos data), Istream data (pos + count) false).
Proof. intros H. unfold istream_read. simpl. by rewrite decide_True. Qed.

Lemma istream_read_short (count : nat) pos :
  (length (drop pos data) < count)%nat ->
  istream_read count (Istream data pos false) =
    (drop pos data, Istream data (pos + length (drop pos data)) true).
Proof. intros H. unfold istream_read. simpl. rewrite decide_False; [done|lia]. Qed.

Lemma ReadToTarget_ok (target : Z) pos :
  (8 <= length (drop pos data))%nat ->
  ReadToTarget (le_split word_size target) (Istream data pos false) =
    Returns (take 8 (drop pos data), Istream data (pos + 8) false).
Proof.
  intros H. unfold ReadToTarget, is_bind, is_ret, is_read, word_size.
  rewrite istream_read_ok by done.
  rewrite (drop_ge (le_split 8 target)), app_nil_r; [done|].
  rewrite length_take, length_le_split. lia.
Qed.

Lemma ReadToTarget_short (target : list byte) pos :
  (length (drop pos data) < 8)%nat ->
  ReadToTarget target (Istream data pos false) =
    Returns (drop pos data ++ drop (length (drop pos data)) target,
             Istream data (pos + length (drop pos data)) true).
Proof.
  intros H. unfold ReadToTarget, is_bind, is_ret, is_read, word_size.
  by rewrite istream_read_short.
Qed.

Lemma ReadToTarget_failed (target : list byte) pos :
  ReadToTarget target (Istream data pos true) =
    Returns (target, Istream data pos true).
Proof. reflexivity. Qed.

Lemma ReadToTarget_size_t_ok (target : Z) pos :
  (8 <= length (drop pos data))%nat ->
  ReadToTarget_size_t target (Istream data pos false) =
    Returns (le_combine (take 8 (drop pos data)),
             Istream data (pos + 8) false).
Proof.
  intros H. unfold ReadToTarget_size_t, is_bind, is_ret.
  by rewrite ReadToTarget_ok.
Qed.

Lemma ReadToTarget_size_t_short (target : Z) pos :
  (length (drop pos data) < 8)%nat -> string_size target ->
  exists size,
    ReadToTarget_size_t target (Istream data pos false) =
      Returns (size, Istream data (pos + length (drop pos data)) true) /\
    string_size size.
Proof.
  intros H Hsz. unfold ReadToTarget_size_t, is_bind, is_ret.
  rewrite ReadToTarget_short by done. eexists. split; [done|].
  by apply partial_read_sized.
Qed.

Lemma ReadToTarget_size_t_failed (target : Z) pos :
  string_size target ->
  ReadToTarget_size_t target (Istream data pos true) =
    Returns (target, Istream data pos true).
Proof.
  intros [H0 Hmax]. unfold ReadToTarget_size_t, is_bind, is_ret.
  rewrite ReadToTarget_failed, le_combine_split.
  rewrite Z.mod_small; [done|]. unfold max_size, sizeof_size_t in *. lia.
Qed.

Lemma ReadToTarget_int64_ok (target : Z) pos :
  (8 <= length (drop pos data))%nat ->
  ReadToTarget_int64 target (Istream data pos false) =
    Returns (to_int64 (le_combine (take 8 (drop pos data))),
             Istream data (pos + 8) false).
Proof.
  intros H. unfold ReadToTarget_int64, is_bind, is_ret.
  by rewrite ReadToTarget_ok.
Qed.

Lemma ReadToTarget_int64_short (target : Z) pos :
  (length (drop pos data) < 8)%nat ->
  exists t,
    ReadToTarget_int64 target (Istream data pos false) =
      Returns (t, Istream data (pos + length (drop pos data)) true).
Proof.
  intros H. unfold ReadToTarget_int64, is_bind, is_ret.
  rewrite ReadToTarget_short by done. by eexists.
Qed.

(** [resize] comes first: above [max_size()] nothing is read. *)
Lemma ReadToTarget_string_throws (size : Z) (s : istream) :
  max_size < size -> ReadToTarget_string size s = Throws length_error.
Proof. intros H. unfold ReadToTarget_string. by rewrite decide_True. Qed.

Lemma ReadToTarget_string_ok (size : Z) pos :
  size <= max_size ->
  (Z.to_nat size <= length (drop pos data))%nat ->
  ReadToTarget_string size (Istream data pos false) =
    Returns (take (Z.to_nat size) (drop pos data),
             Istream data (pos + Z.to_nat size) false).
Proof.
  intros Hsz H. unfold ReadToTarget_string, is_bind, is_ret, is_read.
  rewrite decide_False by lia.
  rewrite istream_read_ok by done.
  rewrite length_take, Nat.min_l by done.
  by rewrite Nat.sub_diag, app_nil_r.
Qed.

Lemma ReadToTarget_string_short (size : Z) pos :
  size <= max_size ->
  (length (drop pos data) < Z.to_nat size)%nat ->
  exists bs,
    ReadToTarget_string size (Istream data pos false) =
      Returns (bs, Istream data (pos + length (drop pos data)) true).
Proof.
  intros Hsz H. unfold ReadToTarget_string, is_bind, is_ret, is_read.
  rewrite decide_False by lia.
  rewrite istream_read_short by done. by eexists.
Qed.

Lemma ReadToTarget_string_failed (size : Z) pos :
  size <= max_size ->
  ReadToTarget_string size (Istream data pos true) =
    Returns (repeat Byte.x00 (Z.to_nat size), Istream data pos true).
Proof.
  intros Hsz. unfold ReadToTarget_string, is_bind, is_ret, is_read.
  rewrite decide_False by lia. cbn. by rewrite Nat.sub_0_r.
Qed.

(** The key and the value, on a stream that has failed: the strings are
    resized all the same. *)
Lemma read_key_value_failed ts k v pos :
  read_key_value ts k v (Istream data pos true) =
    if decide (max_size < k \/ max_size < v) then Throws length_error
    else Returns (CaskEntry.Build ts k v (repeat Byte.x00 (Z.to_nat k))
                    (repeat Byte.x00 (Z.to_nat v)),
                  Istream data pos true).
Proof.
  unfold read_key_value, is_bind, is_ret.
  destruct (decide (max_size < k)) as [Hk|Hk].
  - rewrite ReadToTarget_string_throws by done.
    rewrite decide_True; [done|by left].
  - rewrite ReadToTarget_string_failed by lia.
    destruct (decide (max_size < v)) as [Hv|Hv].
    + rewrite ReadToTarget_string_throws by done.
      rewrite decide_True; [done|by right].
    + rewrite ReadToTarget_string_failed by lia.
      rewrite decide_False; [done|lia].
Qed.

(** The key and the value, on a good stream. *)
Lemma read_key_value_throws ts k v pos :
  max_size < k \/ max_size < v ->
  read_key_value ts k v (Istream data pos false) = Throws length_error.
Proof.
  intros Hover. unfold read_key_value, is_bind, is_ret.
  destruct (decide (max_size < k)) as [Hk|Hk];
    [by rewrite ReadToTarget_string_throws|].
  destruct Hover as [?|Hv]; [done|].
  destruct (decide (Z.to_nat k <= length (drop pos data))%nat) as [Hlen|Hlen].
  - rewrite ReadToTarget_string_ok by (done || lia).
    by rewrite ReadToTarget_string_throws.
  - destruct (ReadToTarget_string_short k pos) as [bs ->]; [lia|lia|].
    by rewrite ReadToTarget_string_throws.
Qed.

Lemma read_key_value_ok ts k v pos :
  k <= max_size -> v <= max_size ->
  (Z.to_nat k + Z.to_nat v <= length (drop pos data))%nat ->
  read_key_value ts k v (Istream data pos false) =
    Returns (CaskEntry.Build ts k v
               (take (Z.to_nat k) (drop pos data))
               (take (Z.to_nat v) (drop (pos + Z.to_nat k) data)),
             Istream data (pos + Z.to_nat k + Z.to_nat v) false).
Proof.
  intros Hk Hv Hlen. unfold read_key_value, is_bind, is_ret.
  rewrite ReadToTarget_string_ok by (done || lia).
  rewrite ReadToTarget_string_ok by (done || rewrite length_drop in *; lia).
  done.
Qed.

Lemma read_key_value_short ts k v pos :
  k <= max_size -> v <= max_size ->
  (length (drop pos data) < Z.to_nat k + Z.to_nat v)%nat ->
  exists e s,
    read_key_value ts k v (Istream data pos false) = Returns (e, s) /\
    is_fail s = true.
Proof.
  intros Hk Hv Hlen. unfold read_key_value, is_bind, is_ret.
  destruct (decide (Z.to_nat k <= length (drop pos data))%nat) as [Hkl|Hkl].
  - rewrite ReadToTarget_string_ok by (done || lia).
    destruct (ReadToTarget_string_short v (pos + Z.to_nat k)) as [bs ->];
      [lia|rewrite length_drop in *; lia|].
    by eexists _, _.
  - destruct (ReadToTarget_string_short k pos) as [bs ->]; [lia|lia|].
    rewrite ReadToTarget_string_failed by lia. by eexists _, _.
Qed.

(** The header of a record: three successful reads of 8 bytes. *)
Lemma extract_header (e0 : CaskEntry.t) pos :
  (24 <= length (drop pos data))%nat ->
  extract e0 (Istream data pos false) =
    read_key_value
      (to_int64 (le_combine (take 8 (drop pos data))))
      (le_combine (take 8 (drop 8 (drop pos data))))
      (le_combine (take 8 (drop 16 (drop pos data))))
      (Istream data (pos + 24) false).
Proof.
  intros Hlen. rewrite length_drop in Hlen.
  change (extract e0) with
    (timestamp <~ ReadToTarget_int64 (CaskEntry.timestamp e0) ;;
     key_sz <~ ReadToTarget_size_t (CaskEntry.key_sz e0) ;;
     value_sz <~ ReadToTarget_size_t (CaskEntry.value_sz e0) ;;
     read_key_value timestamp key_sz value_sz).
  unfold is_bind.
  rewrite ReadToTarget_int64_ok by (rewrite length_drop; lia).
  rewrite ReadToTarget_size_t_ok by (rewrite length_drop; lia).
  rewrite ReadToTarget_size_t_ok by (rewrite length_drop; lia).
  rewrite !drop_drop.
  replace (pos + 8 + 8 + 8)%nat with (pos + 24)%nat by lia.
  replace (pos + 8 + 8)%nat with (pos + 16)%nat by lia.
  reflexivity.
Qed.

(** A header cut short: the reads that follow the short one do nothing,
    and the sizes the strings are resized to are those the object holds,
    with the bytes that were read in place of their low bytes. *)
Lemma extract_header_short (e0 : CaskEntry.t) pos :
  (length (drop pos data) < 24)%nat ->
  exists ts k v p,
    extract e0 (Istream data pos false) =
      read_key_value ts k v (Istream data p true) /\
    (sized e0 -> string_size v) /\
    ((16 <= length (drop pos data))%nat ->
     k = le_combine (take 8 (drop 8 (drop pos data)))) /\
    (sized e0 -> (length (drop pos data) < 16)%nat -> string_size k).
Proof.
  intros Hlen.
  change (extract e0) with
    (timestamp <~ ReadToTarget_int64 (CaskEntry.timestamp e0) ;;
     key_sz <~ ReadToTarget_size_t (CaskEntry.key_sz e0) ;;
     value_sz <~ ReadToTarget_size_t (CaskEntry.value_sz e0) ;;
     read_key_value timestamp key_sz value_sz).
  unfold is_bind.
  destruct (decide (8 <= length (drop pos data))%nat) as [H1|H1].
  - rewrite ReadToTarget_int64_ok by done.
    destruct (decide (8 <= length (drop (pos + 8) data))%nat) as [H2|H2].
    + rewrite ReadToTarget_size_t_ok by done.
      unfold ReadToTarget_size_t at 1, is_bind, is_ret.
      rewrite ReadToTarget_short by (rewrite length_drop in *; lia).
      eexists _, _, _, _. split; [reflexivity|]. split_and!.
      * intros [_ Hv]. apply partial_read_sized; [|done].
        rewrite length_drop in *. lia.
      * intros _. by rewrite drop_drop.
      * intros _ Hlt. rewrite length_drop in *. lia.
    + unfold ReadToTarget_size_t, is_bind, is_ret.
      rewrite ReadToTarget_short by lia. rewrite ReadToTarget_failed.
      eexists _, _, _, _. split; [reflexivity|]. split_and!.
      * intros [_ Hv]. by rewrite le_combine_le_split_sized.
      * intros Hge. rewrite length_drop in *. lia.
      * intros [Hk _] _. apply partial_read_sized; [lia|done].
  - unfold ReadToTarget_int64, ReadToTarget_size_t, is_bind, is_ret.
    rewrite ReadToTarget_short by lia. rewrite !ReadToTarget_failed.
    eexists _, _, _, _. split; [reflexivity|]. split_and!.
    + intros [_ Hv]. by rewrite le_combine_le_split_sized.
    + intros Hge. lia.
    + intros [Hk _] _. by rewrite le_combine_le_split_sized.
Qed.

(** A complete record: the result does not depend on the object. *)
Lemma extract_complete (e0 : CaskEntry.t) pos :
  let bs := drop pos data in
  let key_sz := le_combine (take 8 (drop 8 bs)) in
  let value_sz := le_combine (take 8 (drop 16 bs)) in
  (24 <= length bs)%nat /\
  key_sz <= max_size /\ value_sz <= max_size /\
  (24 + Z.to_nat key_sz + Z.to_nat value_sz <= length bs)%nat ->
  extract e0 (Istream data pos false) =
    Returns
      (CaskEntry.Build (to_int64 (le_combine (take 8 bs))) key_sz value_sz
         (take (Z.to_nat key_sz) (drop 24 bs))
         (take (Z.to_nat value_sz) (drop (24 + Z.to_nat key_sz) bs)),
       Istream data (pos + (24 + Z.to_nat key_sz + Z.to_nat value_sz)) false).
Proof.
  intros bs key_sz value_sz (Hh & Hk & Hv & Hall).
  rewrite extract_header by done. fold bs key_sz value_sz.
  unfold bs in Hh, Hall. rewrite length_drop in Hh, Hall.
  rewrite read_key_value_ok by (done || rewrite length_drop; lia).
  unfold bs at 3 4. rewrite !drop_drop.
  replace (pos + (24 + Z.to_nat key_sz))%nat
    with (pos + 24 + Z.to_nat key_sz)%nat by lia.
  replace (pos + (24 + Z.to_nat key_sz + Z.to_nat value_sz))%nat
    with (pos + 24 + Z.to_nat key_sz + Z.to_nat value_sz)%nat by lia.
  reflexivity.
Qed.

Lemma extract_parse_Some (e0 e : CaskEntry.t) pos (n : nat) :
  parse (drop pos data) = Some (e, n) ->
  extract e0 (Istream data pos false) =
    Returns (e, Istream data (pos + n) false).
Proof.
  unfold parse. intros Hp. case_decide as Hlen; [|done].
  rewrite (extract_complete e0 pos Hlen). congruence.
Qed.

(** An oversized header: [resize] throws, whatever the object holds. *)
Lemma extract_oversized (e0 : CaskEntry.t) pos :
  oversized (drop pos data) ->
  extract e0 (Istream data pos false) = Throws length_error.
Proof.
  intros Hover.
  destruct (decide (24 <= length (drop pos data))%nat) as [Hh|Hh].
  - rewrite extract_header by done. apply read_key_value_throws.
    destruct Hover as [[_ Hk]|[_ Hv]]; [by left|by right].
  - destruct (extract_header_short e0 pos) as (ts & k & v & p & -> & _ & Hk & _);
      [lia|].
    destruct Hover as [[H16 Hover]|[H24 _]]; [|lia].
    rewrite read_key_value_failed, Hk by done.
    rewrite decide_True; [done|by left].
Qed.

(** Bytes that are neither a record nor an oversized header: a short read,
    when the object read into is sized. *)
Lemma extract_parse_None (e0 : CaskEntry.t) pos :
  sized e0 -> ~ oversized (drop pos data) ->
  parse (drop pos data) = None ->
  exists e s,
    extract e0 (Istream data pos false) = Returns (e, s) /\
    is_fail s = true.
Proof.
  unfold parse, oversized. intros Hsz Hover Hp.
  case_decide as Hlen; [done|].
  destruct (decide (24 <= length (drop pos data))%nat) as [Hh|Hh].
  - rewrite extract_header by done.
    apply read_key_value_short; [lia|lia|].
    rewrite length_drop in *. 
    destruct (decide (le_combine (take 8 (drop 8 (drop pos data))) <= max_size));
      destruct (decide (le_combine (take 8 (drop 16 (drop pos data))) <= max_size));
      lia.
  - destruct (extract_header_short e0 pos)
      as (ts & k & v & p & -> & Hv & Hk16 & Hk); [lia|].
    rewrite read_key_value_failed. specialize (Hv Hsz).
    assert (k <= max_size) as Hkmax.
    { destruct (decide (16 <= length (drop pos data))%nat) as [H16|H16].
      - rewrite (Hk16 H16). lia.
      - apply Hk; [done|lia]. }
    rewrite decide_False by (unfold string_size in Hv; lia).
    by eexists _, _.
Qed.

(** Less than a header: the stream fails, or [resize] throws. *)
Lemma extract_short_any (e0 : CaskEntry.t) pos :
  (length (drop pos data) < 24)%nat ->
  match extract e0 (Istream data pos false) with
  | Returns (_, s) => is_fail s = true
  | Throws _ => True
  end.
Proof.
  intros Hlen.
  destruct (extract_header_short e0 pos Hlen) as (ts & k & v & p & -> & _).
  rewrite read_key_value_failed. by case_decide.
Qed.


End Reading.

(** *** The layout of an encoded record *)

Lemma encode_header (e : CaskEntry.t) (rest : list byte) :
  take 8 (encode e ++ rest) = le_split 8 (CaskEntry.timestamp e) /\
  take 8 (drop 8 (encode e ++ rest)) = le_split 8 (CaskEntry.key_sz e) /\
  take 8 (drop 16 (encode e ++ rest)) = le_split 8 (CaskEntry.value_sz e) /\
  drop 24 (encode e ++ rest) = CaskEntry.key e ++ CaskEntry.value e ++ rest.
Proof.
  rewrite encode_eq, <- !app_assoc.
  set (a := le_split 8 (CaskEntry.timestamp e)).
  set (b := le_split 8 (CaskEntry.key_sz e)).
  set (c := le_split 8 (CaskEntry.value_sz e)).
  assert (length a = 8%nat) as Ha by apply length_le_split.
  assert (length b = 8%nat) as Hb by apply length_le_split.
  assert (length c = 8%nat) as Hc by apply length_le_split.
  split_and!.
  - by rewrite take_app_length'.
  - rewrite drop_app_length' by done. by rewrite take_app_length'.
  - rewrite (app_assoc a b), drop_app_length' by (rewrite length_app; lia).
    by rewrite take_app_length'.
  - rewrite (app_assoc a b), (app_assoc (a ++ b) c).
    rewrite drop_app_length' by (rewrite !length_app; lia). done.
Qed.

Lemma parse_encode (e : CaskEntry.t) (rest : list byte) :
  wf_entry e ->
  parse (encode e ++ rest) = Some (e, length (encode e)).
Proof.
  intros (Hts & Hk & Hv & Hkr & Hvr).
  destruct (encode_header e rest) as (H1 & H2 & H3 & H4).
  unfold parse. rewrite H1, H2, H3, !le_combine_le_split_sized by done.
  rewrite le_combine_split. change (Z.of_nat 8 * 8) with 64.
  rewrite to_int64_mod by done.
  unfold string_size in *.
  rewrite Hk, Hv, !Nat2Z.id.
  rewrite decide_True
    by (rewrite length_app, length_encode; lia).
  rewrite <- drop_drop, H4.
  rewrite take_app_length, drop_app_length, take_app_length.
  rewrite length_encode. destruct e; simpl in *; by subst.
Qed.

(** The size fields of a strict prefix of an encoded record, as far as
    they are there, are those of the record. *)
Lemma prefix_fields (e : CaskEntry.t) (p q : list byte) :
  wf_entry e -> encode e = p ++ q ->
  ((16 <= length p)%nat ->
   le_combine (take 8 (drop 8 p)) = CaskEntry.key_sz e) /\
  ((24 <= length p)%nat ->
   le_combine (take 8 (drop 16 p)) = CaskEntry.value_sz e).
Proof.
  intros (Hts & Hk & Hv & Hkr & Hvr) Henc.
  destruct (encode_header e []) as (_ & H2 & H3 & _).
  rewrite app_nil_r, Henc in H2, H3.
  split; intros Hlen.
  - rewrite drop_app_le, take_app_le in H2 by (rewrite ?length_drop; lia).
    by rewrite H2, le_combine_le_split_sized.
  - rewrite drop_app_le, take_app_le in H3 by (rewrite ?length_drop; lia).
    by rewrite H3, le_combine_le_split_sized.
Qed.

(** A strict prefix of an encoded record is a short read. *)
Lemma parse_truncated (e : CaskEntry.t) (p q : list byte) :
  wf_entry e -> encode e = p ++ q -> q <> [] ->
  parse p = None.
Proof.
  intros Hwf Henc Hq.
  assert (length p < length (encode e))%nat as Hlt.
  { rewrite Henc, length_app. destruct q; [done|simpl; lia]. }
  destruct (prefix_fields e p q Hwf Henc) as [H16 H24].
  destruct Hwf as (Hts & Hk & Hv & Hkr & Hvr).
  unfold parse. apply decide_False. intros (Hh & _ & _ & Hall).
  rewrite H16, H24 in Hall by lia.
  rewrite Hk, Hv, !Nat2Z.id in Hall.
  rewrite length_encode in Hlt. lia.
Qed.

(** And it holds no oversized header. *)
Lemma truncated_not_oversized (e : CaskEntry.t) (p q : list byte) :
  wf_entry e -> encode e = p ++ q -> ~ oversized p.
Proof.
  intros Hwf Henc.
  destruct (prefix_fields e p q Hwf Henc) as [H16 H24].
  destruct Hwf as (Hts & Hk & Hv & Hkr & Hvr). unfold string_size in *.
  intros [[Hlen Hover]|[Hlen Hover]].
  - rewrite H16 in Hover by done. lia.
  - rewrite H24 in Hover by done. lia.
Qed.

Lemma parse_not_oversized bs e n : parse bs = Some (e, n) -> ~ oversized bs.
Proof.
  unfold parse, oversized. intros Hp. case_decide as Hlen; [|done]. lia.
Qed.

Lemma parse_nil : parse [] = None.
Proof. reflexivity. Qed.


Lemma parse_consumed bs e n :
  parse bs = Some (e, n) -> (24 <= n <= length bs)%nat.
Proof.
  unfold parse. intros Hp. case_decide as Hlen; [|done].
  injection Hp as _ <-. lia.
Qed.

(** What [parse] decodes are the bytes of a record [Put] could have
    written. *)
Lemma parse_inv bs e n :
  parse bs = Some (e, n) ->
  wf_entry e /\ n = length (encode e) /\ take n bs = encode e.
Proof.
  unfold parse. intros Hp. case_decide as Hlen; [|done].
  destruct Hlen as (Hh & Hkmax & Hvmax & Hall).
  set (t8 := take 8 bs) in *.
  set (k8 := take 8 (drop 8 bs)) in *.
  set (v8 := take 8 (drop 16 bs)) in *.
  assert (length t8 = 8%nat) as Ht8 by (unfold t8; rewrite length_take; lia).
  assert (length k8 = 8%nat) as Hk8
    by (unfold k8; rewrite length_take, length_drop; lia).
  assert (length v8 = 8%nat) as Hv8
    by (unfold v8; rewrite length_take, length_drop; lia).
  pose proof (le_combine_bound t8) as Htb.
  pose proof (le_combine_bound k8) as Hkb.
  pose proof (le_combine_bound v8) as Hvb.
  rewrite Ht8 in Htb. rewrite Hk8 in Hkb. rewrite Hv8 in Hvb.
  change (2 ^ (8 * Z.of_nat 8)) with (2 ^ 64) in *.
  set (ksz := le_combine k8) in *. set (vsz := le_combine v8) in *.
  set (key := take (Z.to_nat ksz) (drop 24 bs)) in *.
  set (value := take (Z.to_nat vsz) (drop (24 + Z.to_nat ksz) bs)) in *.
  assert (length key = Z.to_nat ksz) as Hkey
    by (unfold key; rewrite length_take, length_drop; lia).
  assert (length value = Z.to_nat vsz) as Hvalue
    by (unfold value; rewrite length_take, length_drop; lia).
  assert (e = CaskEntry.Build (to_int64 (le_combine t8)) ksz vsz key value /\
          n = (8 + (8 + (8 + (Z.to_nat ksz + Z.to_nat vsz))))%nat) as [-> ->].
  { split; [congruence|]. injection Hp as _ <-. lia. }
  assert (le_split 8 (to_int64 (le_combine t8)) = t8) as Hts.
  { rewrite le_split_mod. change (Z.of_nat 8 * 8) with 64.
    replace (to_int64 (le_combine t8) mod 2 ^ 64) with (le_combine t8).
    - by apply split_le_combine'.
    - unfold to_int64. case_decide.
      + by rewrite Z.mod_small.
      + apply Z.mod_unique with (q := -1); lia. }
  split_and!.
  - unfold wf_entry, int64_range, string_size, to_int64.
    cbn [CaskEntry.timestamp CaskEntry.key_sz CaskEntry.value_sz
         CaskEntry.key CaskEntry.value].
    split_and!; [case_decide; lia|case_decide; lia|lia|lia|lia|lia|lia|lia].
  - rewrite length_encode.
    cbn [CaskEntry.key CaskEntry.value]. lia.
  - rewrite encode_eq.
    cbn [CaskEntry.timestamp CaskEntry.key_sz CaskEntry.value_sz
         CaskEntry.key CaskEntry.value].
    rewrite Hts. unfold ksz, vsz. rewrite !split_le_combine' by done.
    fold ksz vsz.
    rewrite <- (take_drop 8 bs) at 1. fold t8.
    rewrite take_app_add' by done. f_equal.
    rewrite <- (take_drop 8 (drop 8 bs)) at 1. fold k8.
    rewrite take_app_add' by done. f_equal.
    rewrite drop_drop. change (8 + 8)%nat with 16%nat.
    rewrite <- (take_drop 8 (drop 16 bs)) at 1. fold v8.
    rewrite take_app_add' by done. f_equal.
    rewrite drop_drop. change (16 + 8)%nat with 24%nat.
    rewrite <- (take_drop (Z.to_nat ksz) (drop 24 bs)) at 1. fold key.
    rewrite take_app_add' by done. f_equal.
    by rewrite drop_drop.
Qed.

Lemma parse_sized bs e n : parse bs = Some (e, n) -> sized e.
Proof. intros Hp. apply parse_inv in Hp as [(_ & _ & _ & Hk & Hv) _]. done. Qed.

Lemma init_sized : sized CaskEntry.init.
Proof. by_decide. Qed.

(** [decode] reads the layout. *)
Lemma decode_parse (bs : list byte) :
  decode bs =
    if decide (oversized bs) then Throws length_error else Returns (parse bs).
Proof.
  unfold decode. case_decide as Hover.
  - by rewrite (extract_oversized bs CaskEntry.init 0).
  - destruct (parse bs) as [[e n]|] eqn:Hp.
    + by rewrite (extract_parse_Some bs CaskEntry.init e 0 n).
    + destruct (extract_parse_None bs CaskEntry.init 0 init_sized Hover Hp)
        as (e & s & -> & Hf).
      cbn. by rewrite Hf.
Qed.

(** ** The replay loop on a segment *)

Lemma encode_all_cons e es : encode_all (e :: es) = encode e ++ encode_all es.
Proof. reflexivity. Qed.

Lemma encode_all_app es1 es2 :
  encode_all (es1 ++ es2) = encode_all es1 ++ encode_all es2.
Proof. unfold encode_all. by rewrite map_app, concat_app. Qed.

Lemma length_encode_all_ge es : (length es <= length (encode_all es))%nat.
Proof.
  induction es as [|e es IH]; [done|].
  rewrite encode_all_cons, length_app, length_encode. simpl. lia.
Qed.

Lemma fold_records_app path start es1 es2 kd :
  fold_records path start (es1 ++ es2) kd =
    fold_records path (start + length (encode_all es1)) es2
      (fold_records path start es1 kd).
Proof.
  revert start kd. induction es1 as [|e es1 IH]; intros start kd.
  - simpl. by rewrite Nat.add_0_r.
  - rewrite <- app_comm_cons. cbn [fold_records].
    rewrite IH, encode_all_cons, length_app. f_equal. lia.
Qed.

Lemma fold_file_with_offsets name es : forall start kd,
  fold_file name (with_offsets start es) kd = fold_records name start es kd.
Proof.
  unfold fold_file. induction es as [|e es IH]; intros start kd; [done|].
  cbn [with_offsets foldl fold_records]. apply IH.
Qed.

(** One turn of the loop on a complete record. *)
Lemma replay_loop_record fuel path data pos e0 e n kd :
  parse (drop pos data) = Some (e, n) ->
  replay_loop (S fuel) path (Istream data pos false) e0 kd =
    replay_loop fuel path (Istream data (pos + n) false) e
      (load_entry path (Z.of_nat pos) e kd).
Proof.
  intros Hp. simpl. by rewrite (extract_parse_Some data e0 e pos n Hp).
Qed.

(** The loop is left by the exception at an oversized header. *)
Lemma replay_loop_throws fuel path data pos e0 kd :
  oversized (drop pos data) ->
  replay_loop (S fuel) path (Istream data pos false) e0 kd =
    Throws length_error.
Proof. intros Hover. simpl. by rewrite extract_oversized. Qed.

(** The loop ends at a short read. *)
Lemma replay_loop_end fuel path data pos e0 kd :
  sized e0 -> ~ oversized (drop pos data) -> parse (drop pos data) = None ->
  replay_loop fuel path (Istream data pos false) e0 kd = Returns kd.
Proof.
  intros Hsz Hover Hp. destruct fuel as [|fuel]; [done|]. simpl.
  destruct (extract_parse_None data e0 pos Hsz Hover Hp) as (e & s & -> & Hf).
  by rewrite Hf.
Qed.

(** The loop throws at an oversized header after the last record, and
    folds the records [parse_all] lists otherwise. *)
Lemma replay_loop_outcome fuel path : forall data pos e0 kd,
  sized e0 ->
  replay_loop fuel path (Istream data pos false) e0 kd =
    if decide (throws_after fuel (drop pos data)) then Throws length_error
    else Returns (fold_file path (parse_all fuel pos (drop pos data)) kd).
Proof.
  induction fuel as [|fuel IH]; intros data pos e0 kd Hsz.
  - case_decide as Hthrow; [destruct Hthrow|done].
  - destruct (parse (drop pos data)) as [[e n]|] eqn:Hp.
    + rewrite (replay_loop_record fuel path data pos e0 e n) by done.
      rewrite IH by by eapply parse_sized.
      replace (fold_file path (parse_all (S fuel) pos (drop pos data)) kd)
        with (fold_file path (parse_all fuel (pos + n) (drop (pos + n) data))
                (load_entry path (Z.of_nat pos) e kd))
        by (cbn [parse_all]; by rewrite Hp, drop_drop).
      apply decide_ext. cbn [throws_after]. by rewrite Hp, drop_drop.
    + cbn [parse_all]. rewrite Hp.
      case_decide as Hthrow; cbn [throws_after] in Hthrow;
        rewrite Hp in Hthrow.
      * by apply replay_loop_throws.
      * by apply replay_loop_end.
Qed.

(** More turns than the bytes: the reading does not depend on them. *)
Lemma parse_all_fuel fuel : forall fuel' pos bs,
  (length bs < fuel)%nat -> (length bs < fuel')%nat ->
  parse_all fuel pos bs = parse_all fuel' pos bs.
Proof.
  induction fuel as [|fuel IH]; intros fuel' pos bs Hf Hf'; [lia|].
  destruct fuel' as [|fuel']; [lia|]. cbn [parse_all].
  destruct (parse bs) as [[e n]|] eqn:Hp; [|done].
  apply parse_consumed in Hp. f_equal.
  apply IH; rewrite length_drop; lia.
Qed.

Lemma throws_after_fuel fuel : forall fuel' bs,
  (length bs < fuel)%nat -> (length bs < fuel')%nat ->
  throws_after fuel bs <-> throws_after fuel' bs.
Proof.
  induction fuel as [|fuel IH]; intros fuel' bs Hf Hf'; [lia|].
  destruct fuel' as [|fuel']; [lia|]. cbn [throws_after].
  destruct (parse bs) as [[e n]|] eqn:Hp; [|done].
  apply parse_consumed in Hp.
  apply IH; rewrite length_drop; lia.
Qed.

Lemma replay_loop_fuel_sized fuel path data pos e0 kd :
  sized e0 ->
  (replay_fuel (Istream data pos false) <= fuel)%nat ->
  replay_loop fuel path (Istream data pos false) e0 kd =
    replay_loop (replay_fuel (Istream data pos false)) path
      (Istream data pos false) e0 kd.
Proof.
  unfold replay_fuel. cbn [is_data is_pos]. intros Hsz Hfuel.
  rewrite !replay_loop_outcome by done.
  rewrite (parse_all_fuel fuel (S (length data - pos)))
    by (rewrite length_drop; lia).
  apply decide_ext, throws_after_fuel; rewrite length_drop; lia.
Qed.

(** The loop leaves through the failed read or the exception, never for
    lack of turns: any number of turns from [replay_fuel] on gives the
    same outcome, whatever the object read into holds. *)
Lemma replay_loop_fuel fuel path data pos e0 kd :
  (replay_fuel (Istream data pos false) <= fuel)%nat ->
  replay_loop fuel path (Istream data pos false) e0 kd =
    replay_loop (replay_fuel (Istream data pos false)) path
      (Istream data pos false) e0 kd.
Proof.
  intros Hfuel.
  destruct fuel as [|fuel]; [unfold replay_fuel in Hfuel; lia|].
  change (replay_fuel (Istream data pos false))
    with (S (length data - pos)) in *.
  destruct (decide (24 <= length (drop pos data))%nat) as [Hh|Hh].
  - cbn [replay_loop].
    rewrite (extract_header data e0 pos Hh).
    rewrite <- (extract_header data CaskEntry.init pos Hh).
    change (replay_loop (S fuel) path (Istream data pos false)
              CaskEntry.init kd =
            replay_loop (S (length data - pos)) path (Istream data pos false)
              CaskEntry.init kd).
    by apply replay_loop_fuel_sized; [apply init_sized|].
  - cbn [replay_loop].
    pose proof (extract_short_any data e0 pos ltac:(lia)) as Hshort.
    destruct (extract e0 (Istream data pos false)) as [[e s]|ex]; [|done].
    by rewrite Hshort.
Qed.

(** ** What [Open] does with the files *)

Lemma load_file_outcome disk kd name :
  load_file disk kd name =
    if decide (throws_in disk name) then Throws length_error
    else Returns (fold_file name (records_in disk name) kd).
Proof.
  unfold load_file.
  destruct (decide (extension name = kCaskSuffix)) as [Hext|Hext].
  - assert (replay_loop (replay_fuel (ifstream disk name)) name
              (ifstream disk name) CaskEntry.init kd =
            if decide (segment_throws (contents disk name))
            then Throws length_error
            else Returns
                   (fold_file name (segment_records (contents disk name)) kd))
      as ->.
    { unfold ifstream, contents, segment_throws, segment_records.
      destruct (disk !! name) as [data|].
      - change (default [] (Some data)) with data.
        rewrite replay_loop_outcome by apply init_sized.
        unfold replay_fuel. cbn [is_data is_pos].
        by rewrite Nat.sub_0_r, drop_0.
      - change (default [] None) with (@nil byte).
        case_decide as Hthrow; [|done].
        exfalso. cbn [throws_after] in Hthrow. rewrite parse_nil in Hthrow.
        unfold oversized in Hthrow. cbn [length] in Hthrow. lia. }
    unfold records_in. rewrite (decide_True _ _ Hext).
    apply decide_ext. unfold throws_in. tauto.
  - unfold records_in. rewrite (decide_False _ _ Hext).
    rewrite decide_False; [done|]. by intros [? _].
Qed.

Lemma load_files_outcome disk listing : forall kd,
  load_files disk kd listing =
    if decide (Exists (throws_in disk) listing) then Throws length_error
    else Returns
           (foldl (fun kd name => fold_file name (records_in disk name) kd)
              kd listing).
Proof.
  induction listing as [|name listing IH]; intros kd.
  - cbn. rewrite decide_False; [done|]. by intros ?%Exists_nil.
  - cbn [load_files foldl]. rewrite load_file_outcome.
    destruct (decide (throws_in disk name)) as [Hthrow|Hthrow].
    + cbn. rewrite decide_True; [done|by left].
    + cbn. rewrite IH. apply decide_ext. rewrite Exists_cons. tauto.
Qed.

(** [Open] throws when a listed file does, and returns the store on the
    records of the listed files otherwise. *)
Lemma Open_outcome listing now disk :
  Open listing now disk =
    if decide (Exists (throws_in disk) listing) then Throws length_error
    else Returns (opened listing now disk).
Proof. unfold Open. rewrite load_files_outcome. by case_decide. Qed.

Lemma Open_Returns listing now disk (w0 : World) :
  Open listing now disk = Returns w0 ->
  w0 = opened listing now disk /\ ~ Exists (throws_in disk) listing.
Proof. rewrite Open_outcome. case_decide; [done|]. by intros [= <-]. Qed.

Lemma Open_opened listing now disk :
  ~ Exists (throws_in disk) listing ->
  Open listing now disk = Returns (opened listing now disk).
Proof. intros Hok. rewrite Open_outcome. by rewrite decide_False. Qed.

Lemma recovery_outcome listing now disk :
  recovery listing now disk =
    if decide (Exists (throws_in disk) listing) then Throws length_error
    else Returns (recovered listing disk).
Proof. unfold recovery. rewrite Open_outcome. by case_decide. Qed.

Lemma throws_in_ext disk1 disk2 name :
  (extension name = kCaskSuffix -> disk1 !! name = disk2 !! name) ->
  throws_in disk1 name <-> throws_in disk2 name.
Proof.
  intros Hd. unfold throws_in, contents.
  split; intros [Hext Hthrow]; (split; [done|]);
    [by rewrite <- Hd|by rewrite Hd].
Qed.

(** ** Segment names *)

Lemma string_length_app (s1 s2 : string) :
  String.length (s1 +:+ s2) = (String.length s1 + String.length s2)%nat.
Proof. induction s1 as [|c s1 IH]; simpl; [done|by rewrite IH]. Qed.

Lemma from_last_period_suffix (s : string) :
  from_last_period (s +:+ kCaskSuffix) = Some kCaskSuffix.
Proof.
  induction s as [|c s IH]; [done|].
  change (String c s +:+ kCaskSuffix) with (String c (s +:+ kCaskSuffix)).
  cbn [from_last_period]. by rewrite IH.
Qed.

Lemma extension_suffix (s : string) :
  s <> EmptyString -> extension (s +:+ kCaskSuffix) = kCaskSuffix.
Proof.
  intros Hs. destruct s as [|c s]; [done|].
  change (String c s +:+ kCaskSuffix) with (String c (s +:+ kCaskSuffix)).
  unfold extension. rewrite decide_False.
  - by rewrite from_last_period_suffix.
  - intros Heq. apply (f_equal String.length) in Heq.
    cbn [String.length] in Heq. rewrite string_length_app in Heq.
    simpl in Heq. lia.
Qed.

Lemma pretty_N_go_nonempty (x : N) (s : string) :
  s <> EmptyString -> pretty_N_go x s <> EmptyString.
Proof.
  revert s. induction (N.lt_wf_0 x) as [x _ IH]; intros s Hs.
  assert (x = 0 \/ 0 < x)%N as [->|Hx] by lia.
  - by rewrite pretty_N_go_0.
  - rewrite pretty_N_go_step by done. apply IH; [by apply N.div_lt|done].
Qed.

Lemma pretty_Z_nonempty (z : Z) : pretty z <> EmptyString.
Proof.
  destruct z as [|x|x]; [done| |done].
  unfold pretty, pretty_Z, pretty, pretty_positive, pretty, pretty_N.
  rewrite decide_False by done.
  rewrite pretty_N_go_step by lia. by apply pretty_N_go_nonempty.
Qed.

(** The file that [Open] creates is found by the next [Open]. *)
Lemma extension_segment_name (now : Z) :
  extension (segment_name now) = kCaskSuffix.
Proof. apply extension_suffix, pretty_Z_nonempty. Qed.

Lemma segment_name_inj (now1 now2 : Z) :
  segment_name now1 = segment_name now2 -> now1 = now2.
Proof.
  unfold segment_name. intros Heq. apply (inj pretty).
  assert (forall s1 s2 : string,
            String.length s1 = String.length s2 ->
            s1 +:+ kCaskSuffix = s2 +:+ kCaskSuffix -> s1 = s2) as Hcancel.
  { induction s1 as [|c1 s1 IH]; intros [|c2 s2] Hlen Happ;
      simpl in Hlen; try done.
    injection Happ as -> Happ. f_equal. apply IH; [lia|done]. }
  apply Hcancel; [|done].
  apply (f_equal String.length) in Heq.
  rewrite !string_length_app in Heq. lia.
Qed.

(** ** The live operations *)

Lemma Put_eq time_us key value bc disk :
  Put time_us key value (bc, disk) =
    (MkBitcask (db_path_ bc)
       (f_ bc ++ encode (put_record time_us key value))
       (<[key := put_entry (db_path_ bc) (length (f_ bc)) time_us key value]>
          (key_dir_ bc)),
     <[db_path_ bc := f_ bc ++ encode (put_record time_us key value)]> disk).
Proof. unfold Put. by rewrite insert_entry_encode. Qed.

Lemma Delete_eq time_us key bc disk :
  Delete time_us key (bc, disk) =
    match key_dir_ bc !! key with
    | None => (bc, disk)
    | Some _ =>
        (MkBitcask (db_path_ bc)
           (f_ bc ++ encode (put_record time_us key kTombstoneValue))
           (delete key (key_dir_ bc)),
         <[db_path_ bc :=
             f_ bc ++ encode (put_record time_us key kTombstoneValue)]> disk)
    end.
Proof.
  unfold Delete. cbn [fst]. destruct (key_dir_ bc !! key); [|done].
  rewrite Put_eq. cbn [key_dir_ db_path_ f_]. by rewrite delete_insert_eq.
Qed.

(** Reading a value that the file holds in full. *)
Lemma Get_read key bc disk e data :
  key_dir_ bc !! key = Some e ->
  disk !! KeyDirEntry.file_id e = Some data ->
  0 <= KeyDirEntry.value_pos e ->
  (Z.to_nat (KeyDirEntry.value_sz e)
     <= length data - Z.to_nat (KeyDirEntry.value_pos e))%nat ->
  Get key (bc, disk) =
    Value (take (Z.to_nat (KeyDirEntry.value_sz e))
             (drop (Z.to_nat (KeyDirEntry.value_pos e)) data)).
Proof.
  intros Hk Hfile Hpos Hlen. unfold Get, ifstream, seekg. rewrite Hk, Hfile.
  cbn [is_fail]. rewrite decide_False by lia. cbn [is_data is_pos].
  rewrite istream_read_ok by (rewrite length_drop; lia). done.
Qed.

(** [Get] returns a value only by reading it in full from the file. *)
Lemma Get_Value_inv key bc disk v :
  Get key (bc, disk) = Value v ->
  exists e data,
    key_dir_ bc !! key = Some e /\
    disk !! KeyDirEntry.file_id e = Some data /\
    0 <= KeyDirEntry.value_pos e /\
    (Z.to_nat (KeyDirEntry.value_sz e)
       <= length data - Z.to_nat (KeyDirEntry.value_pos e))%nat /\
    v = take (Z.to_nat (KeyDirEntry.value_sz e))
          (drop (Z.to_nat (KeyDirEntry.value_pos e)) data).
Proof.
  unfold Get, ifstream, seekg.
  destruct (key_dir_ bc !! key) as [e|] eqn:Hk; [|done].
  destruct (disk !! KeyDirEntry.file_id e) as [data|] eqn:Hfile; [|done].
  cbn [is_fail]. case_decide as Hpos; [done|]. cbn [is_data is_pos].
  unfold istream_read. cbn [is_fail is_data is_pos].
  case_decide as Hlen; cbn [is_fail]; [|done].
  intros [= <-]. exists e, data. rewrite length_drop in Hlen.
  split_and!; [done|done|lia|lia|done].
Qed.


(** Read-your-write, on any store. *)
Lemma Get_Put time_us key value (w : World) :
  Get key (Put time_us key value w) = Value value.
Proof.
  destruct w as [bc disk]. rewrite Put_eq.
  erewrite Get_read; [| cbn [key_dir_]; apply lookup_insert_eq
                      | cbn [put_entry KeyDirEntry.file_id]; apply lookup_insert_eq
                      | unfold put_entry, CaskEntry.ValueOffset, sizeof_int64_t, sizeof_size_t;
                        cbn [KeyDirEntry.value_pos]; lia
                      | ].
  - unfold put_entry, put_record, CaskEntry.ValueOffset, sizeof_int64_t,
      sizeof_size_t.
    cbn [KeyDirEntry.value_pos KeyDirEntry.value_sz CaskEntry.key].
    rewrite encode_eq. cbn [CaskEntry.timestamp CaskEntry.key_sz
      CaskEntry.value_sz CaskEntry.key CaskEntry.value].
    replace (Z.to_nat (Z.of_nat (length (f_ bc)) +
               (Z.of_nat 8 + Z.of_nat 8 + Z.of_nat 8 + Z.of_nat (length key))))
      with (length (f_ bc ++ le_split 8 time_us ++
                    le_split 8 (Z.of_nat (length key)) ++
                    le_split 8 (Z.of_nat (length value)) ++ key))
      by (rewrite !length_app, !length_le_split; lia).
    rewrite !(app_assoc _ _ value), (app_assoc (f_ bc)), !app_assoc.
    rewrite drop_app_length, Nat2Z.id, firstn_all. done.
  - unfold put_entry, put_record, CaskEntry.ValueOffset, sizeof_int64_t,
      sizeof_size_t.
    cbn [KeyDirEntry.value_pos KeyDirEntry.value_sz CaskEntry.key].
    rewrite length_app, length_encode.
    cbn [CaskEntry.key CaskEntry.value]. lia.
Qed.

(** ** Sessions *)

Lemma step_eq (o : Op) bc disk :
  step (bc, disk) o =
    (MkBitcask (db_path_ bc)
       (f_ bc ++ encode_all (op_records o (bc, disk)))
       (key_dir_ (step (bc, disk) o).1),
     match op_records o (bc, disk) with
     | [] => disk
     | _ => <[db_path_ bc :=
               f_ bc ++ encode_all (op_records o (bc, disk))]> disk
     end).
Proof.
  destruct o as [t k v|t k]; cbn [step op_records fst].
  - rewrite Put_eq. cbn [fst key_dir_]. unfold encode_all. simpl.
    by rewrite app_nil_r.
  - rewrite Delete_eq. destruct (key_dir_ bc !! k).
    + cbn [fst key_dir_]. unfold encode_all. simpl. by rewrite app_nil_r.
    + unfold encode_all. simpl. rewrite app_nil_r. by destruct bc.
Qed.

Lemma step_db_path o w : db_path_ (step w o).1 = db_path_ w.1.
Proof. destruct w as [bc disk]. by rewrite step_eq. Qed.

Lemma step_f o w :
  f_ (step w o).1 = f_ w.1 ++ encode_all (op_records o w).
Proof. destruct w as [bc disk]. by rewrite step_eq. Qed.

Lemma step_synced o w : synced w -> synced (step w o).
Proof.
  destruct w as [bc disk]. unfold synced. rewrite step_eq. cbn [fst snd].
  intros Hs. destruct (op_records o (bc, disk)) eqn:Hr.
  - by rewrite app_nil_r.
  - by rewrite lookup_insert_eq.
Qed.

(** A call leaves the other files alone. *)
Lemma step_disk_other o w name :
  name <> db_path_ w.1 -> (step w o).2 !! name = w.2 !! name.
Proof.
  destruct w as [bc disk]. rewrite step_eq. cbn [fst snd]. intros Hne.
  destruct (op_records o (bc, disk)); [done|]. by rewrite lookup_insert_ne.
Qed.

Lemma run_snoc ops o w : run (ops ++ [o]) w = step (run ops w) o.
Proof. unfold run. by rewrite foldl_app. Qed.

Lemma run_cons ops o w : run (o :: ops) w = run ops (step w o).
Proof. reflexivity. Qed.

Lemma run_db_path ops w : db_path_ (run ops w).1 = db_path_ w.1.
Proof.
  revert w. induction ops as [|o ops IH]; intros w; [done|].
  by rewrite run_cons, IH, step_db_path.
Qed.

Lemma run_synced ops w : synced w -> synced (run ops w).
Proof.
  revert w. induction ops as [|o ops IH]; intros w Hs; [done|].
  rewrite run_cons. by apply IH, step_synced.
Qed.

Lemma run_disk_other ops w name :
  name <> db_path_ w.1 -> (run ops w).2 !! name = w.2 !! name.
Proof.
  revert w. induction ops as [|o ops IH]; intros w Hne; [done|].
  rewrite run_cons, IH by (by rewrite step_db_path).
  by apply step_disk_other.
Qed.

(** The stream of the store after a session. *)
Lemma run_written ops w :
  f_ (run ops w).1 = f_ w.1 ++ encode_all (written ops w).
Proof.
  revert w. induction ops as [|o ops IH]; intros w.
  - simpl. by rewrite app_nil_r.
  - rewrite run_cons, IH, step_f. cbn [written].
    by rewrite encode_all_app, app_assoc.
Qed.

(** The directory after a session: only the segment of the store changed. *)
Lemma run_disk ops w :
  synced w ->
  (run ops w).2 = <[db_path_ w.1 := f_ (run ops w).1]> w.2.
Proof.
  intros Hs. apply map_eq. intros name.
  destruct (decide (name = db_path_ w.1)) as [->|Hne].
  - rewrite lookup_insert_eq. pose proof (run_synced ops w Hs) as Hs'.
    unfold synced in Hs'. by rewrite run_db_path in Hs'.
  - rewrite lookup_insert_ne by done. by apply run_disk_other.
Qed.

Lemma put_record_wf t k v :
  int64_range t -> string_size (Z.of_nat (length k)) ->
  string_size (Z.of_nat (length v)) -> wf_entry (put_record t k v).
Proof. intros. unfold wf_entry, put_record. simpl. done. Qed.

Lemma tombstone_sized : string_size (Z.of_nat (length kTombstoneValue)).
Proof. by_decide. Qed.

Lemma op_records_wf o w : op_sized o -> Forall wf_entry (op_records o w).
Proof.
  destruct o as [t k v|t k]; intros (Ht & Hk & Hv); cbn [op_records].
  - apply Forall_singleton. by apply put_record_wf.
  - destruct (key_dir_ w.1 !! k); [|done].
    apply Forall_singleton. apply put_record_wf; [done|done|].
    apply tombstone_sized.
Qed.

Lemma written_wf ops w : Forall op_sized ops -> Forall wf_entry (written ops w).
Proof.
  revert w. induction ops as [|o ops IH]; intros w Hs; [done|].
  apply Forall_cons in Hs as [Ho Hs]. cbn [written].
  apply Forall_app. split; [by apply op_records_wf|by apply IH].
Qed.

(** ** Recovery against the live KeyDir *)







(** ** What a session leaves in the KeyDir *)

Lemma Put_lookup t k v (w : World) :
  key_dir_ (Put t k v w).1 !! k =
    Some (put_entry (db_path_ w.1) (length (f_ w.1)) t k v).
Proof. destruct w as [bc disk]. rewrite Put_eq. apply lookup_insert_eq. Qed.

Lemma Delete_lookup t k (w : World) : key_dir_ (Delete t k w).1 !! k = None.
Proof.
  destruct w as [bc disk]. rewrite Delete_eq.
  destruct (key_dir_ bc !! k) eqn:Hk; [|done]. apply lookup_delete_eq.
Qed.

Lemma step_lookup_other o (w : World) k :
  op_key o <> k -> key_dir_ (step w o).1 !! k = key_dir_ w.1 !! k.
Proof.
  destruct w as [bc disk]. destruct o as [t k' v|t k']; cbn [step op_key];
    intros Hne.
  - rewrite Put_eq. by apply lookup_insert_ne.
  - rewrite Delete_eq. destruct (key_dir_ bc !! k'); [|done].
    by apply lookup_delete_ne.
Qed.

(** A value that could be read stays readable while other keys are
    written: the segment only grows. *)
Lemma Get_step_other o (w : World) k v :
  synced w -> op_key o <> k -> Get k w = Value v -> Get k (step w o) = Value v.
Proof.
  destruct w as [bc disk]. intros Hs Hne Hget.
  apply Get_Value_inv in Hget as (e & data & Hk & Hfile & Hpos & Hlen & ->).
  pose proof (step_lookup_other o (bc, disk) k Hne) as Hk'.
  change (key_dir_ (bc, disk).1) with (key_dir_ bc) in Hk'. rewrite Hk in Hk'.
  destruct (step (bc, disk) o) as [bc' disk'] eqn:Hstep. cbn [fst] in Hk'.
  destruct (decide (KeyDirEntry.file_id e = db_path_ bc)) as [Heq|Hneq].
  - assert (disk' !! KeyDirEntry.file_id e =
              Some (data ++ encode_all (op_records o (bc, disk)))) as Hfile'.
    { pose proof (step_synced o (bc, disk) Hs) as Hs'.
      unfold synced in Hs, Hs'. rewrite Hstep in Hs'. cbn [fst snd] in *.
      pose proof (step_db_path o (bc, disk)) as Hp.
      pose proof (step_f o (bc, disk)) as Hf.
      rewrite Hstep in Hp, Hf. cbn [fst] in *.
      rewrite Heq, <- Hp, Hs', Hf. rewrite Heq, Hs in Hfile.
      by injection Hfile as ->. }
    rewrite (Get_read k bc' disk' e _ Hk' Hfile' Hpos)
      by (rewrite length_app; lia).
    f_equal.
    destruct (decide (Z.to_nat (KeyDirEntry.value_pos e) <= length data)%nat).
    + rewrite drop_app_le by done. apply take_app_le.
      rewrite length_drop. lia.
    + replace (Z.to_nat (KeyDirEntry.value_sz e)) with 0%nat by lia. done.
  - assert (disk' !! KeyDirEntry.file_id e = Some data) as Hfile'.
    { pose proof (step_disk_other o (bc, disk) (KeyDirEntry.file_id e) Hneq)
        as Hd. rewrite Hstep in Hd. cbn [snd] in Hd. by rewrite Hd. }
    by rewrite (Get_read k bc' disk' e data Hk' Hfile' Hpos Hlen).
Qed.

Lemma last_op_snoc k ops o :
  last_op k (ops ++ [o]) =
    if decide (op_key o = k) then Some o else last_op k ops.
Proof.
  unfold last_op. rewrite filter_app, filter_cons, filter_nil.
  case_decide.
  - by rewrite last_snoc.
  - by rewrite app_nil_r.
Qed.

Lemma last_op_middle k ops1 o ops2 :
  op_key o = k -> Forall (fun o' => op_key o' <> k) ops2 ->
  last_op k (ops1 ++ o :: ops2) = Some o.
Proof.
  intros Hk. induction ops2 as [|x ops2 IH] using rev_ind; intros Hother.
  - rewrite last_op_snoc. by rewrite decide_True.
  - apply Forall_app in Hother as [Hother Hx].
    rewrite Forall_singleton in Hx.
    rewrite app_comm_cons, app_assoc, last_op_snoc.
    rewrite decide_False by done. by apply IH.
Qed.


(** The last call on a key decides what the KeyDir holds for it. *)
Lemma run_last_op ops : forall (w : World) k,
  match last_op k ops with
  | Some (OpPut t _ v) =>
      exists e, key_dir_ (run ops w).1 !! k = Some e /\
                KeyDirEntry.timestamp e = t /\
                KeyDirEntry.file_id e = db_path_ w.1
  | Some (OpDelete _ _) => key_dir_ (run ops w).1 !! k = None
  | None => key_dir_ (run ops w).1 !! k = key_dir_ w.1 !! k
  end.
Proof.
  induction ops as [|o ops IH] using rev_ind; intros w k; [done|].
  rewrite last_op_snoc, run_snoc. case_decide as Hk.
  - destruct o as [t k' v|t k']; cbn [op_key] in Hk; subst k'; cbn [step].
    + eexists. split; [apply Put_lookup|].
      split; [done|]. cbn [put_entry KeyDirEntry.file_id]. apply run_db_path.
    + apply Delete_lookup.
  - specialize (IH w k). destruct (last_op k ops) as [[t k' v|t k']|].
    + destruct IH as (e & He & Ht & Hf). exists e. by rewrite step_lookup_other.
    + by rewrite step_lookup_other.
    + by rewrite step_lookup_other.
Qed.

(** The value of the last [Put] on a key can be read back. *)
Lemma run_last_op_Get ops : forall (w : World) k t v,
  synced w -> last_op k ops = Some (OpPut t k v) ->
  Get k (run ops w) = Value v.
Proof.
  induction ops as [|o ops IH] using rev_ind; intros w k t v Hs Hl; [done|].
  rewrite last_op_snoc in Hl. rewrite run_snoc. case_decide as Hk.
  - injection Hl as ->. apply Get_Put.
  - apply Get_step_other; [by apply run_synced|done|by eapply IH].
Qed.

Lemma Get_absent k (w : World) :
  key_dir_ w.1 !! k = None -> Get k w = MissingKeyException k.
Proof. destruct w as [bc disk]. unfold Get. cbn [fst]. by intros ->. Qed.

(** A key that is absent stays absent until it is put. *)
Lemma run_absent ops : forall (w : World) k,
  key_dir_ w.1 !! k = None -> Forall (fun o => ~ is_put_on k o) ops ->
  key_dir_ (run ops w).1 !! k = None.
Proof.
  induction ops as [|o ops IH]; intros w k Hk Hno; [done|].
  apply Forall_cons in Hno as [Ho Hno]. rewrite run_cons.
  apply IH; [|done].
  destruct (decide (op_key o = k)) as [Heq|Hne].
  - destruct o as [t k' v|t k']; cbn [op_key is_put_on] in *; [done|].
    subst k'. apply Delete_lookup.
  - by rewrite step_lookup_other.
Qed.




(** ** More on the records of a session *)

Lemma load_entry_other path start e kd k :
  CaskEntry.key e <> k -> load_entry path start e kd !! k = kd !! k.
Proof.
  intros Hne. unfold load_entry. destruct (outdated _ e); [done|].
  case_decide; [by rewrite lookup_delete_ne|by rewrite lookup_insert_ne].
Qed.

Lemma fold_records_other path es : forall start kd k,
  Forall (fun e => CaskEntry.key e <> k) es ->
  fold_records path start es kd !! k = kd !! k.
Proof.
  induction es as [|e es IH]; intros start kd k Hes; [done|].
  apply Forall_cons in Hes as [He Hes]. cbn [fold_records].
  by rewrite IH, load_entry_other.
Qed.

(** A record whose value is the marker is never indexed. *)
Lemma load_entry_marker path start e kd :
  CaskEntry.value e = kTombstoneValue ->
  load_entry path start e kd =
    if outdated (kd !! CaskEntry.key e) e then kd
    else delete (CaskEntry.key e) kd.
Proof. intros Hv. unfold load_entry. by rewrite decide_True. Qed.

Lemma op_records_keys o w k :
  op_key o <> k -> Forall (fun e => CaskEntry.key e <> k) (op_records o w).
Proof.
  intros Hne. destruct o as [t k' v|t k']; cbn [op_records op_key] in *.
  - by apply Forall_singleton.
  - destruct (key_dir_ w.1 !! k'); [by apply Forall_singleton|done].
Qed.

Lemma written_keys ops : forall w k,
  Forall (fun o => op_key o <> k) ops ->
  Forall (fun e => CaskEntry.key e <> k) (written ops w).
Proof.
  induction ops as [|o ops IH]; intros w k Hops; [done|].
  apply Forall_cons in Hops as [Ho Hops]. cbn [written].
  apply Forall_app. split; [by apply op_records_keys|by apply IH].
Qed.

Lemma written_app ops1 ops2 w :
  written (ops1 ++ ops2) w = written ops1 w ++ written ops2 (run ops1 w).
Proof.
  revert w. induction ops1 as [|o ops1 IH]; intros w; [done|].
  rewrite <- app_comm_cons. cbn [written]. by rewrite IH, run_cons, app_assoc.
Qed.

Lemma opened_synced listing now disk : synced (opened listing now disk).
Proof.
  unfold synced, opened, Bitcask_new. cbn [fst snd db_path_ f_].
  apply lookup_insert_eq.
Qed.


(** What the KeyDir holds for a key is older than [t] when the entry it
    held and the records of the key folded since are. *)
Lemma fold_records_older path es : forall start kd k t,
  (forall e, kd !! k = Some e -> KeyDirEntry.timestamp e < t) ->
  Forall (fun r => CaskEntry.key r = k -> CaskEntry.timestamp r < t) es ->
  forall e, fold_records path start es kd !! k = Some e ->
            KeyDirEntry.timestamp e < t.
Proof.
  induction es as [|r es IH]; intros start kd k t Hkd Hes; [done|].
  apply Forall_cons in Hes as [Hr Hes]. cbn [fold_records].
  apply IH; [|done]. intros e.
  destruct (decide (CaskEntry.key r = k)) as [Hk|Hk].
  - unfold load_entry. destruct (outdated _ r); [apply Hkd|].
    case_decide.
    + rewrite <- Hk. by rewrite lookup_delete_eq.
    + rewrite <- Hk. rewrite lookup_insert_eq. intros [= <-].
      cbn [KeyDirEntry.timestamp]. by apply Hr.
  - rewrite load_entry_other by done. apply Hkd.
Qed.

Lemma op_records_older o w k t :
  (op_key o = k -> op_time o < t) ->
  Forall (fun r => CaskEntry.key r = k -> CaskEntry.timestamp r < t)
    (op_records o w).
Proof.
  intros Ho. destruct o as [t' k' v|t' k']; cbn [op_records op_key op_time] in *.
  - by apply Forall_singleton.
  - destruct (key_dir_ w.1 !! k'); [by apply Forall_singleton|done].
Qed.

Lemma written_older ops : forall w k t,
  Forall (fun o => op_key o = k -> op_time o < t) ops ->
  Forall (fun r => CaskEntry.key r = k -> CaskEntry.timestamp r < t)
    (written ops w).
Proof.
  induction ops as [|o ops IH]; intros w k t Hops; [done|].
  apply Forall_cons in Hops as [Ho Hops]. cbn [written].
  apply Forall_app. split; [by apply op_records_older|by apply IH].
Qed.


(** ** Recovery, key by key *)

(** What the loop body does to a key depends on what the KeyDir holds for
    this key only. *)
Lemma load_entry_local path start e kd1 kd2 k :
  kd1 !! k = kd2 !! k ->
  load_entry path start e kd1 !! k = load_entry path start e kd2 !! k.
Proof.
  intros Hk. destruct (decide (CaskEntry.key e = k)) as [<-|Hne].
  - unfold load_entry. rewrite Hk. destruct (outdated _ e); [done|].
    case_decide; [by rewrite !lookup_delete_eq|by rewrite !lookup_insert_eq].
  - by rewrite !load_entry_other.
Qed.

Lemma fold_file_local name rs : forall kd1 kd2 k,
  kd1 !! k = kd2 !! k ->
  fold_file name rs kd1 !! k = fold_file name rs kd2 !! k.
Proof.
  unfold fold_file. induction rs as [|[start e] rs IH]; intros kd1 kd2 k Hk;
    [done|].
  cbn [foldl]. apply IH. by apply load_entry_local.
Qed.

Lemma fold_file_other name rs : forall kd k,
  k ∉ (fun se : nat * CaskEntry.t => CaskEntry.key se.2) <$> rs ->
  fold_file name rs kd !! k = kd !! k.
Proof.
  unfold fold_file. induction rs as [|[start e] rs IH]; intros kd k Hk;
    [done|].
  cbn [foldl]. rewrite fmap_cons, not_elem_of_cons in Hk.
  destruct Hk as [Hne Hk]. rewrite IH by done.
  apply load_entry_other. cbn in Hne. congruence.
Qed.

Lemma fold_listing_other disk listing : forall kd k,
  (forall name, name ∈ listing -> k ∉ keys_in disk name) ->
  foldl (fun kd name => fold_file name (records_in disk name) kd) kd listing
    !! k = kd !! k.
Proof.
  induction listing as [|name listing IH]; intros kd k Hk; [done|].
  cbn [foldl]. rewrite IH by (intros name' Hin; apply Hk; by right).
  apply fold_file_other. apply Hk. by left.
Qed.

Lemma fold_listing_local disk listing : forall kd1 kd2 k,
  kd1 !! k = kd2 !! k ->
  foldl (fun kd name => fold_file name (records_in disk name) kd) kd1 listing
    !! k =
  foldl (fun kd name => fold_file name (records_in disk name) kd) kd2 listing
    !! k.
Proof.
  induction listing as [|name listing IH]; intros kd1 kd2 k Hk; [done|].
  cbn [foldl]. apply IH. by apply fold_file_local.
Qed.

Lemma opened_key_dir listing now disk :
  key_dir_ (opened listing now disk).1 =
    foldl (fun kd name => fold_file name (records_in disk name) kd) ∅ listing.
Proof. reflexivity. Qed.

(** A key that one file only holds records of is recovered from that
    file, wherever the file stands in the listing. *)
Lemma opened_isolated_key listing1 listing2 now disk name k :
  (forall name', name' ∈ listing1 ++ listing2 -> k ∉ keys_in disk name') ->
  key_dir_ (opened (listing1 ++ name :: listing2) now disk).1 !! k =
    fold_file name (records_in disk name) ∅ !! k.
Proof.
  intros Hother. rewrite opened_key_dir, foldl_app. cbn [foldl].
  rewrite fold_listing_other
    by (intros name' Hin; apply Hother, elem_of_app; by right).
  apply fold_file_local. apply fold_listing_other.
  intros name' Hin. apply Hother, elem_of_app. by left.
Qed.

Lemma records_in_ext disk1 disk2 name :
  (extension name = kCaskSuffix -> disk1 !! name = disk2 !! name) ->
  records_in disk1 name = records_in disk2 name.
Proof.
  intros Hd. unfold records_in, contents. case_decide; [|done].
  by rewrite Hd.
Qed.


Lemma recovered_ext disk1 disk2 listing : forall kd,
  (forall name, name ∈ listing -> extension name = kCaskSuffix ->
                disk1 !! name = disk2 !! name) ->
  foldl (fun kd name => fold_file name (records_in disk1 name) kd) kd listing =
  foldl (fun kd name => fold_file name (records_in disk2 name) kd) kd listing.
Proof.
  induction listing as [|name listing IH]; intros kd Hd; [done|].
  cbn [foldl].
  rewrite (records_in_ext disk1 disk2 name) by (apply Hd; by left).
  apply IH. intros name' Hin. apply Hd. by right.
Qed.

Lemma throws_ext disk1 disk2 listing :
  (forall name, name ∈ listing -> extension name = kCaskSuffix ->
                disk1 !! name = disk2 !! name) ->
  Exists (throws_in disk1) listing <-> Exists (throws_in disk2) listing.
Proof.
  intros Hd. rewrite !Exists_exists.
  split; intros (name & Hin & Hthrow); exists name; (split; [done|]);
    [apply (throws_in_ext disk1 disk2 name)|
     apply (throws_in_ext disk1 disk2 name)]; auto.
Qed.

(** ** What the KeyDir points at *)

Lemma parse_all_elem fuel : forall pos bs start r,
  (start, r) ∈ parse_all fuel pos bs ->
  (pos <= start)%nat /\ wf_entry r /\
  take (length (encode r)) (drop (start - pos) bs) = encode r.
Proof.
  induction fuel as [|fuel IH]; intros pos bs start r Hin;
    [by apply elem_of_nil in Hin|].
  cbn [parse_all] in Hin. destruct (parse bs) as [[e n]|] eqn:Hp;
    [|by apply elem_of_nil in Hin].
  apply parse_inv in Hp as (Hwf & Hn & Htake).
  apply elem_of_cons in Hin as [[= -> ->]|Hin].
  - rewrite Nat.sub_diag, drop_0, <- Hn. done.
  - apply IH in Hin as (Hle & Hwr & Htr). split_and!; [lia|done|].
    rewrite drop_drop in Htr.
    by replace (n + (start - (pos + n)))%nat with (start - pos)%nat in Htr
      by lia.
Qed.

(** A record decoded from a file lies in the file where its offset says,
    and so does its value. *)
Lemma records_in_value disk name start r :
  (start, r) ∈ records_in disk name ->
  exists data,
    disk !! name = Some data /\ wf_entry r /\
    (start + 24 + length (CaskEntry.key r) + length (CaskEntry.value r)
       <= length data)%nat /\
    take (length (CaskEntry.value r))
      (drop (start + 24 + length (CaskEntry.key r)) data) = CaskEntry.value r.
Proof.
  unfold records_in, segment_records, contents. case_decide as Hext;
    [|intros Hin; by apply elem_of_nil in Hin].
  destruct (disk !! name) as [data|].
  - change (default [] (Some data)) with data.
    intros Hin. apply parse_all_elem in Hin as (_ & Hwf & Htake).
    rewrite Nat.sub_0_r in Htake. exists data. split_and!; [done|done| |].
    + apply (f_equal length) in Htake.
      rewrite length_take, length_drop, length_encode in Htake. lia.
    + assert (drop start data =
                encode r ++ drop (length (encode r)) (drop start data)) as Hd
        by (by rewrite <- Htake at 1; rewrite take_drop).
      destruct (encode_header r (drop (length (encode r)) (drop start data)))
        as (_ & _ & _ & H24).
      rewrite <- Hd, drop_drop in H24.
      rewrite <- drop_drop, H24.
      by rewrite drop_app_length, take_app_length.
  - intros Hin. cbn in Hin. by apply elem_of_nil in Hin.
Qed.

Lemma load_entry_indexed name start r kd k e :
  load_entry name (Z.of_nat start) r kd !! k = Some e ->
  kd !! k = Some e \/
  (CaskEntry.key r = k /\ CaskEntry.value r <> kTombstoneValue /\
   e = entry_of name start r).
Proof.
  unfold load_entry. destruct (outdated _ r); [by left|].
  case_decide as Hv.
  - intros Hk. left. apply lookup_delete_Some in Hk. by destruct Hk.
  - intros Hk. apply lookup_insert_Some in Hk as [[<- <-]|[_ Hk]];
      [by right|by left].
Qed.

Lemma fold_file_indexed name rs : forall kd k e,
  fold_file name rs kd !! k = Some e ->
  kd !! k = Some e \/
  exists start r, (start, r) ∈ rs /\ CaskEntry.key r = k /\
                  CaskEntry.value r <> kTombstoneValue /\
                  e = entry_of name start r.
Proof.
  unfold fold_file. induction rs as [|[start r] rs IH]; intros kd k e Hk;
    [by left|].
  cbn [foldl] in Hk. apply IH in Hk as [Hk|(start' & r' & Hin & Hrest)].
  - apply load_entry_indexed in Hk as [Hk|Hk]; [by left|right].
    exists start, r. split; [by left|done].
  - right. exists start', r'. split; [by right|done].
Qed.

Lemma fold_listing_indexed disk listing : forall kd k e,
  foldl (fun kd name => fold_file name (records_in disk name) kd) kd listing
    !! k = Some e ->
  kd !! k = Some e \/
  exists name start r,
    name ∈ listing /\ (start, r) ∈ records_in disk name /\
    CaskEntry.key r = k /\ CaskEntry.value r <> kTombstoneValue /\
    e = entry_of name start r.
Proof.
  induction listing as [|name listing IH]; intros kd k e Hk; [by left|].
  cbn [foldl] in Hk.
  apply IH in Hk as [Hk|(name' & start & r & Hin & Hrest)].
  - apply fold_file_indexed in Hk as [Hk|(start & r & Hin & Hrest)];
      [by left|right].
    exists name, start, r. split; [by left|done].
  - right. exists name', start, r. split; [by right|done].
Qed.

(** Every entry of the recovered KeyDir is the entry of a record of a
    listed file, with a value other than the marker. *)
Lemma opened_entry listing now disk k e :
  key_dir_ (opened listing now disk).1 !! k = Some e ->
  exists name start r,
    name ∈ listing /\ (start, r) ∈ records_in disk name /\
    CaskEntry.key r = k /\ CaskEntry.value r <> kTombstoneValue /\
    e = entry_of name start r.
Proof.
  rewrite opened_key_dir. intros Hk.
  apply fold_listing_indexed in Hk as [Hk|Hk]; [done|done].
Qed.

(** And [Get] returns the value of this record, when the file is still
    there. *)
Lemma opened_Get listing now disk k name start r :
  key_dir_ (opened listing now disk).1 !! k = Some (entry_of name start r) ->
  (start, r) ∈ records_in disk name ->
  name <> segment_name now ->
  Get k (opened listing now disk) = Value (CaskEntry.value r).
Proof.
  intros Hk Hr Hne.
  apply records_in_value in Hr as (data & Hfile & Hwf & Hlen & Hvalue).
  destruct Hwf as (_ & _ & Hvsz & _).
  unfold opened, Bitcask_new in *. cbn [fst key_dir_] in Hk.
  erewrite Get_read; [| exact Hk | | |].
  - unfold entry_of, CaskEntry.ValueOffset, sizeof_int64_t, sizeof_size_t.
    cbn [KeyDirEntry.value_sz KeyDirEntry.value_pos].
    rewrite Hvsz, Nat2Z.id.
    replace (Z.to_nat (Z.of_nat start + (Z.of_nat 8 + Z.of_nat 8 + Z.of_nat 8
               + Z.of_nat (length (CaskEntry.key r)))))
      with (start + 24 + length (CaskEntry.key r))%nat by lia.
    by rewrite Hvalue.
  - cbn [entry_of KeyDirEntry.file_id]. by rewrite lookup_insert_ne.
  - unfold entry_of, CaskEntry.ValueOffset. cbn [KeyDirEntry.value_pos]. lia.
  - unfold entry_of, CaskEntry.ValueOffset, sizeof_int64_t, sizeof_size_t.
    cbn [KeyDirEntry.value_sz KeyDirEntry.value_pos]. rewrite Hvsz. lia.
Qed.

(** ** The segment of a session *)

Lemma with_offsets_snd es : forall start, (with_offsets start es).*2 = es.
Proof.
  induction es as [|e es IH]; intros start; [done|].
  cbn [with_offsets fmap list_fmap snd]. by rewrite IH.
Qed.

Lemma parse_all_encode_all es : forall fuel pos tail,
  Forall wf_entry es -> parse tail = None -> (length es < fuel)%nat ->
  parse_all fuel pos (encode_all es ++ tail) = with_offsets pos es.
Proof.
  induction es as [|e es IH]; intros fuel pos tail Hwf Htail Hfuel.
  - destruct fuel as [|fuel]; [done|]. cbn [parse_all encode_all map concat app].
    by rewrite Htail.
  - apply Forall_cons in Hwf as [He Hes].
    destruct fuel as [|fuel]; [cbn [length] in Hfuel; lia|].
    rewrite encode_all_cons, <- app_assoc. cbn [parse_all with_offsets].
    rewrite parse_encode by done. rewrite drop_app_length.
    rewrite IH; [done..|]. cbn [length] in Hfuel. lia.
Qed.

Lemma segment_records_encode_all es tail :
  Forall wf_entry es -> parse tail = None ->
  segment_records (encode_all es ++ tail) = with_offsets 0 es.
Proof.
  intros Hwf Htail. unfold segment_records.
  apply parse_all_encode_all; [done..|].
  pose proof (length_encode_all_ge es). rewrite length_app. lia.
Qed.

Lemma throws_after_encode_all es : forall fuel tail,
  Forall wf_entry es -> parse tail = None -> ~ oversized tail ->
  ~ throws_after fuel (encode_all es ++ tail).
Proof.
  induction es as [|e es IH]; intros fuel tail Hwf Htail Hover.
  - destruct fuel as [|fuel]; [by intros []|].
    cbn [throws_after encode_all map concat app]. by rewrite Htail.
  - apply Forall_cons in Hwf as [He Hes].
    destruct fuel as [|fuel]; [by intros []|].
    rewrite encode_all_cons, <- app_assoc. cbn [throws_after].
    rewrite parse_encode by done. rewrite drop_app_length. by apply IH.
Qed.

Lemma not_oversized_nil : ~ oversized [].
Proof. unfold oversized. cbn [length]. lia. Qed.

Lemma run_opened_segment listing now disk ops :
  (run ops (opened listing now disk)).2 !! segment_name now =
    Some (encode_all (written ops (opened listing now disk))).
Proof.
  rewrite run_disk by apply opened_synced. rewrite run_written.
  unfold opened at 1 2, Bitcask_new. cbn [fst db_path_ f_ app].
  apply lookup_insert_eq.
Qed.

Lemma run_opened_other listing now disk ops name :
  name <> segment_name now ->
  (run ops (opened listing now disk)).2 !! name = disk !! name.
Proof.
  intros Hne. rewrite run_disk_other by done.
  unfold opened, Bitcask_new. cbn [snd]. by rewrite lookup_insert_ne.
Qed.

(** The segment of a session decodes to the records the session wrote. *)
Lemma records_in_session listing now disk ops :
  Forall op_sized ops ->
  records_in (run ops (opened listing now disk)).2 (segment_name now) =
    with_offsets 0 (written ops (opened listing now disk)).
Proof.
  intros Hsized. unfold records_in, contents.
  rewrite run_opened_segment.
  rewrite decide_True by apply extension_segment_name.
  change (default [] (Some ?x)) with x.
  rewrite <- (app_nil_r (encode_all _)).
  apply segment_records_encode_all; [by apply written_wf|apply parse_nil].
Qed.

Lemma session_not_throws listing now disk ops :
  Forall op_sized ops ->
  ~ throws_in (run ops (opened listing now disk)).2 (segment_name now).
Proof.
  intros Hsized [_ Hthrow]. unfold segment_throws, contents in Hthrow.
  rewrite run_opened_segment in Hthrow.
  change (default [] (Some ?x)) with x in Hthrow.
  rewrite <- (app_nil_r (encode_all _)) in Hthrow.
  revert Hthrow. apply throws_after_encode_all;
    [by apply written_wf|apply parse_nil|apply not_oversized_nil].
Qed.

(** Opening the directory again after a session, the old segments listed
    in the old order and the segment of the session last. *)
Lemma reopen_key_dir listing now disk ops now' :
  segment_name now ∉ listing -> Forall op_sized ops ->
  key_dir_ (opened (listing ++ [segment_name now]) now'
              (run ops (opened listing now disk)).2).1 =
    fold_records (segment_name now) 0
      (written ops (opened listing now disk))
      (key_dir_ (opened listing now disk).1).
Proof.
  intros Hfresh Hsized. rewrite !opened_key_dir, foldl_app. cbn [foldl].
  rewrite records_in_session, fold_file_with_offsets by done. f_equal.
  apply recovered_ext. intros name Hin _. apply run_opened_other.
  by intros ->.
Qed.

(** And [Open] returns then, when it returned before the session. *)
Lemma reopen_returns listing now disk ops :
  segment_name now ∉ listing -> Forall op_sized ops ->
  ~ Exists (throws_in disk) listing ->
  ~ Exists (throws_in (run ops (opened listing now disk)).2)
      (listing ++ [segment_name now]).
Proof.
  intros Hfresh Hsized Hok. rewrite Exists_app, Exists_cons, Exists_nil.
  intros [Hold|[Hnew|[]]].
  - apply Hok. revert Hold. apply throws_ext.
    intros name Hin _. symmetry. apply run_opened_other. by intros ->.
  - by apply (session_not_throws listing now disk ops).
Qed.

Lemma reopen_Open listing now disk ops now' :
  segment_name now ∉ listing -> Forall op_sized ops ->
  ~ Exists (throws_in disk) listing ->
  Open (listing ++ [segment_name now]) now'
    (run ops (opened listing now disk)).2 =
  Returns (opened (listing ++ [segment_name now]) now'
             (run ops (opened listing now disk)).2).
Proof. intros. by apply Open_opened, reopen_returns. Qed.

(** ** Sessions read what they wrote *)

Lemma readable_Get (w : World) k :
  readable w ->
  (exists v, Get k w = Value v) \/ Get k w = MissingKeyException k.
Proof.
  destruct w as [bc disk]. intros Hr.
  destruct (key_dir_ bc !! k) as [e|] eqn:Hk.
  - left. destruct (Hr k e Hk) as (data & Hf & Hpos & Hlen).
    eexists. eapply Get_read; [done..|lia].
  - right. by apply Get_absent.
Qed.

Lemma Get_missing_inv k k' (w : World) :
  Get k w = MissingKeyException k' -> key_dir_ w.1 !! k = None.
Proof.
  destruct w as [bc disk]. unfold Get. cbn [fst].
  destruct (key_dir_ bc !! k); [|done].
  destruct (istream_read _ _) as [v i]. by destruct (is_fail i).
Qed.

Lemma step_lookup_inv o (w : World) k e :
  key_dir_ (step w o).1 !! k = Some e ->
  key_dir_ w.1 !! k = Some e \/
  exists t v,
    o = OpPut t k v /\
    e = put_entry (db_path_ w.1) (length (f_ w.1)) t k v.
Proof.
  destruct w as [bc disk]. destruct o as [t k' v|t k']; cbn [step].
  - rewrite Put_eq. cbn [fst key_dir_ db_path_ f_]. intros Hk.
    apply lookup_insert_Some in Hk as [[<- <-]|[_ Hk]];
      [right; eauto|by left].
  - rewrite Delete_eq.
    destruct (key_dir_ bc !! k') eqn:Hk'; cbn [fst key_dir_]; [|by left].
    intros Hk. apply lookup_delete_Some in Hk as [_ Hk]. by left.
Qed.

Lemma step_readable o (w : World) :
  synced w -> readable w -> readable (step w o).
Proof.
  intros Hs Hr k e Hk.
  pose proof (step_synced o w Hs) as Hs'. unfold synced in Hs'.
  rewrite step_db_path in Hs'.
  apply step_lookup_inv in Hk as [Hk|(t & v & -> & ->)].
  - destruct (Hr k e Hk) as (data & Hf & Hpos & Hlen).
    destruct (decide (KeyDirEntry.file_id e = db_path_ w.1)) as [Heq|Hne].
    + exists (f_ (step w o).1). rewrite Heq. split; [done|]. split; [done|].
      rewrite Heq in Hf. unfold synced in Hs. rewrite Hs in Hf.
      injection Hf as <-. rewrite step_f, length_app. lia.
    + exists data. by rewrite step_disk_other.
  - exists (f_ (step w (OpPut t k v)).1).
    unfold put_entry, put_record, CaskEntry.ValueOffset, sizeof_int64_t,
      sizeof_size_t.
    cbn [KeyDirEntry.file_id KeyDirEntry.value_pos KeyDirEntry.value_sz
         CaskEntry.key].
    split; [done|]. rewrite step_f. cbn [op_records].
    rewrite encode_all_cons, !length_app, length_encode.
    cbn [put_record CaskEntry.key CaskEntry.value]. lia.
Qed.

Lemma run_readable ops : forall w : World,
  synced w -> readable w -> readable (run ops w).
Proof.
  induction ops as [|o ops IH]; intros w Hs Hr; [done|].
  rewrite run_cons. apply IH; [by apply step_synced|by apply step_readable].
Qed.

Lemma opened_readable listing now disk :
  segment_name now ∉ listing -> readable (opened listing now disk).
Proof.
  intros Hfresh k e Hk. rewrite opened_key_dir in Hk.
  apply fold_listing_indexed in Hk
    as [Hk|(name & start & r & Hin & Hr & _ & _ & ->)]; [done|].
  apply records_in_value in Hr as (data & Hfile & Hwf & Hlen & _).
  destruct Hwf as (_ & _ & Hvsz & _).
  exists data. unfold opened, Bitcask_new.
  cbn [snd entry_of KeyDirEntry.file_id KeyDirEntry.value_pos
       KeyDirEntry.value_sz].
  split; [rewrite lookup_insert_ne; [done|]; by intros <-|].
  unfold CaskEntry.ValueOffset, sizeof_int64_t, sizeof_size_t.
  rewrite Hvsz. lia.
Qed.

Lemma run_app ops1 ops2 w : run (ops1 ++ ops2) w = run ops2 (run ops1 w).
Proof. apply foldl_app. Qed.

Lemma Get_step_frame o (w : World) k :
  synced w -> readable w -> op_key o <> k -> Get k (step w o) = Get k w.
Proof.
  intros Hs Hr Hne. destruct (readable_Get w k Hr) as [[v Hv]|Hm].
  - rewrite Hv. by apply Get_step_other.
  - rewrite Hm. apply Get_absent. rewrite step_lookup_other by done.
    by eapply Get_missing_inv.
Qed.

Lemma Get_run_frame ops k : forall w : World,
  synced w -> readable w -> Forall (fun o => op_key o <> k) ops ->
  Get k (run ops w) = Get k w.
Proof.
  induction ops as [|o ops IH]; intros w Hs Hr Hall; [done|].
  apply Forall_cons in Hall as [Ho Hall]. rewrite run_cons.
  rewrite IH by (done || by apply step_synced || by apply step_readable).
  by apply Get_step_frame.
Qed.

Lemma written_absent ops k : forall w : World,
  key_dir_ w.1 !! k = None -> Forall (fun o => ~ is_put_on k o) ops ->
  Forall (fun r => CaskEntry.key r <> k) (written ops w).
Proof.
  induction ops as [|o ops IH]; intros w Hk Hall; [apply Forall_nil_2|].
  apply Forall_cons in Hall as [Ho Hall]. cbn [written].
  apply Forall_app. split.
  - destruct o as [t k' v|t k']; cbn [op_records is_put_on] in *.
    + by apply Forall_singleton.
    + destruct (key_dir_ w.1 !! k') eqn:Hk'; [|apply Forall_nil_2].
      apply Forall_singleton. cbn [put_record CaskEntry.key].
      intros ->. congruence.
  - apply IH; [|done].
    apply (run_absent [o] w k Hk). by apply Forall_singleton.
Qed.


(** ** Clock readings that do not advance *)

Lemma load_entry_stale path start r kd k e :
  kd !! k = Some e ->
  (CaskEntry.key r = k -> CaskEntry.timestamp r <= KeyDirEntry.timestamp e) ->
  load_entry path start r kd !! k = Some e.
Proof.
  intros Hk Hts. destruct (decide (CaskEntry.key r = k)) as [Heq|Hne].
  - unfold load_entry. rewrite Heq, Hk. cbn [outdated].
    rewrite bool_decide_eq_true_2; [done|]. specialize (Hts Heq). lia.
  - by rewrite load_entry_other.
Qed.

Lemma fold_records_stale path es : forall start kd k e,
  kd !! k = Some e ->
  Forall (fun r => CaskEntry.key r = k ->
                   CaskEntry.timestamp r <= KeyDirEntry.timestamp e) es ->
  fold_records path start es kd !! k = Some e.
Proof.
  induction es as [|r es IH]; intros start kd k e Hk Hall; [done|].
  apply Forall_cons in Hall as [Hr Hall]. cbn [fold_records].
  apply IH; [|done]. by apply load_entry_stale.
Qed.

(** ** Recovery without tombstones *)

Lemma load_entry_grows path start r kd k e :
  CaskEntry.value r <> kTombstoneValue -> kd !! k = Some e ->
  exists e', load_entry path start r kd !! k = Some e' /\
             KeyDirEntry.timestamp e <= KeyDirEntry.timestamp e'.
Proof.
  intros Hv Hk. unfold load_entry.
  destruct (outdated (kd !! CaskEntry.key r) r) eqn:Ho;
    [exists e; split; [done|lia]|].
  rewrite decide_False by done.
  destruct (decide (CaskEntry.key r = k)) as [Heq|Hne].
  - rewrite Heq in *. rewrite lookup_insert_eq. eexists; split; [done|].
    cbn [KeyDirEntry.timestamp]. rewrite Hk in Ho. cbn [outdated] in Ho.
    apply bool_decide_eq_false in Ho. lia.
  - rewrite lookup_insert_ne by done. exists e; split; [done|lia].
Qed.

Lemma load_entry_covers path start r kd :
  CaskEntry.value r <> kTombstoneValue ->
  exists e', load_entry path start r kd !! CaskEntry.key r = Some e' /\
             CaskEntry.timestamp r <= KeyDirEntry.timestamp e'.
Proof.
  intros Hv. unfold load_entry.
  destruct (kd !! CaskEntry.key r) as [e|] eqn:Hk; cbn [outdated].
  - case_bool_decide as Hts.
    + exists e; split; [done|lia].
    + rewrite decide_False by done. rewrite lookup_insert_eq.
      eexists; split; [done|]. cbn [KeyDirEntry.timestamp]. lia.
  - rewrite decide_False by done. rewrite lookup_insert_eq.
    eexists; split; [done|]. cbn [KeyDirEntry.timestamp]. lia.
Qed.

Lemma fold_file_grows name rs : forall kd k e,
  Forall (fun se : nat * CaskEntry.t =>
            CaskEntry.value se.2 <> kTombstoneValue) rs ->
  kd !! k = Some e ->
  exists e', fold_file name rs kd !! k = Some e' /\
             KeyDirEntry.timestamp e <= KeyDirEntry.timestamp e'.
Proof.
  unfold fold_file. induction rs as [|[start r] rs IH]; intros kd k e Hall Hk.
  - exists e; split; [done|lia].
  - apply Forall_cons in Hall as [Hr Hall]. cbn [foldl].
    destruct (load_entry_grows name (Z.of_nat start) r kd k e Hr Hk)
      as (e1 & Hk1 & Hle1).
    destruct (IH _ k e1 Hall Hk1) as (e2 & Hk2 & Hle2).
    exists e2; split; [done|lia].
Qed.

Lemma fold_file_covers name rs : forall kd start r,
  Forall (fun se : nat * CaskEntry.t =>
            CaskEntry.value se.2 <> kTombstoneValue) rs ->
  (start, r) ∈ rs ->
  exists e', fold_file name rs kd !! CaskEntry.key r = Some e' /\
             CaskEntry.timestamp r <= KeyDirEntry.timestamp e'.
Proof.
  induction rs as [|[start0 r0] rs IH]; intros kd start r Hall Hin;
    [by apply elem_of_nil in Hin|].
  apply Forall_cons in Hall as [Hr Hall].
  apply elem_of_cons in Hin as [[= -> ->]|Hin].
  - destruct (load_entry_covers name (Z.of_nat start0) r0 kd Hr)
      as (e1 & Hk1 & Hle1).
    destruct (fold_file_grows name rs _ _ e1 Hall Hk1) as (e2 & Hk2 & Hle2).
    exists e2; split; [exact Hk2|lia].
  - apply (IH (load_entry name (Z.of_nat start0) r0 kd) start r Hall Hin).
Qed.

Lemma fold_listing_grows disk listing : forall kd k e,
  (forall name, name ∈ listing ->
     Forall (fun se : nat * CaskEntry.t =>
               CaskEntry.value se.2 <> kTombstoneValue)
       (records_in disk name)) ->
  kd !! k = Some e ->
  exists e',
    foldl (fun kd name => fold_file name (records_in disk name) kd) kd listing
      !! k = Some e' /\
    KeyDirEntry.timestamp e <= KeyDirEntry.timestamp e'.
Proof.
  induction listing as [|name listing IH]; intros kd k e Hall Hk.
  - exists e; split; [done|lia].
  - cbn [foldl].
    destruct (fold_file_grows name (records_in disk name) kd k e)
      as (e1 & Hk1 & Hle1); [apply Hall; by left|done|].
    destruct (IH (fold_file name (records_in disk name) kd) k e1)
      as (e2 & Hk2 & Hle2); [intros n Hn; apply Hall; by right|exact Hk1|].
    exists e2; split; [done|lia].
Qed.

Lemma fold_listing_covers disk listing : forall kd name start r,
  (forall name, name ∈ listing ->
     Forall (fun se : nat * CaskEntry.t =>
               CaskEntry.value se.2 <> kTombstoneValue)
       (records_in disk name)) ->
  name ∈ listing -> (start, r) ∈ records_in disk name ->
  exists e',
    foldl (fun kd name => fold_file name (records_in disk name) kd) kd listing
      !! CaskEntry.key r = Some e' /\
    CaskEntry.timestamp r <= KeyDirEntry.timestamp e'.
Proof.
  induction listing as [|name0 listing IH]; intros kd name start r Hall Hn Hin;
    [by apply elem_of_nil in Hn|].
  cbn [foldl]. apply elem_of_cons in Hn as [->|Hn].
  - destruct (fold_file_covers name0 (records_in disk name0) kd start r)
      as (e1 & Hk1 & Hle1); [apply Hall; by left|done|].
    destruct (fold_listing_grows disk listing
                (fold_file name0 (records_in disk name0) kd)
                (CaskEntry.key r) e1)
      as (e2 & Hk2 & Hle2); [intros n Hn; apply Hall; by right|done|].
    exists e2; split; [done|lia].
  - apply (IH _ name start r); [intros n Hn'; apply Hall; by right|done..].
Qed.

Lemma opened_timestamp_le listing listing' now disk k e :
  (forall name, name ∈ listing' ->
     Forall (fun se : nat * CaskEntry.t =>
               CaskEntry.value se.2 <> kTombstoneValue)
       (records_in disk name)) ->
  (forall name, name ∈ listing -> name ∈ listing') ->
  key_dir_ (opened listing now disk).1 !! k = Some e ->
  exists e', key_dir_ (opened listing' now disk).1 !! k = Some e' /\
             KeyDirEntry.timestamp e <= KeyDirEntry.timestamp e'.
Proof.
  intros Hall Hsub Hk. rewrite opened_key_dir in Hk.
  apply fold_listing_indexed in Hk
    as [Hk|(name & start & r & Hin & Hr & <- & _ & ->)]; [done|].
  rewrite opened_key_dir.
  apply (fold_listing_covers disk listing' ∅ name start r Hall);
    [by apply Hsub|done].
Qed.

Lemma disjoint_keys_checked (disk : Disk) (listing : list string) :
  Forall (fun n1 =>
    Forall (fun n2 =>
      n1 = n2 \/ Forall (fun k => k ∉ keys_in disk n2) (keys_in disk n1))
      listing) listing ->
  forall n1 n2 k, n1 ∈ listing -> n2 ∈ listing -> n1 <> n2 ->
                  k ∈ keys_in disk n1 -> k ∉ keys_in disk n2.
Proof.
  intros Hall n1 n2 k H1 H2 Hne Hk.
  rewrite Forall_forall in Hall. specialize (Hall n1 H1).
  rewrite Forall_forall in Hall. destruct (Hall n2 H2) as [?|Hks]; [done|].
  rewrite Forall_forall in Hks. by apply Hks.
Qed.

(** ** A segment of records and a tail *)

Lemma records_in_records disk name es tail :
  extension name = kCaskSuffix ->
  disk !! name = Some (encode_all es ++ tail) ->
  Forall wf_entry es -> parse tail = None ->
  records_in disk name = with_offsets 0 es.
Proof.
  intros Hext Hfile Hwf Htail. unfold records_in, contents.
  rewrite decide_True by done. rewrite Hfile.
  change (default [] (Some ?x)) with x.
  by apply segment_records_encode_all.
Qed.

Lemma not_throws_records disk name es tail :
  disk !! name = Some (encode_all es ++ tail) ->
  Forall wf_entry es -> parse tail = None -> ~ oversized tail ->
  ~ throws_in disk name.
Proof.
  intros Hfile Hwf Htail Hover [_ Hthrow].
  unfold segment_throws, contents in Hthrow. rewrite Hfile in Hthrow.
  change (default [] (Some ?x)) with x in Hthrow.
  revert Hthrow. by apply throws_after_encode_all.
Qed.

(** Loading a segment that holds the well-formed records [es] and then
    bytes that are neither a record nor an oversized header. *)
Lemma load_file_records disk kd name es tail :
  extension name = kCaskSuffix ->
  disk !! name = Some (encode_all es ++ tail) ->
  Forall wf_entry es -> parse tail = None -> ~ oversized tail ->
  load_file disk kd name = Returns (fold_records name 0 es kd).
Proof.
  intros Hext Hfile Hwf Htail Hover. rewrite load_file_outcome.
  rewrite decide_False by by eapply not_throws_records.
  rewrite (records_in_records disk name es tail) by done.
  by rewrite fold_file_with_offsets.
Qed.

Lemma recovered_records_ext disk1 disk2 listing : forall kd,
  (forall name, name ∈ listing ->
                records_in disk1 name = records_in disk2 name) ->
  foldl (fun kd name => fold_file name (records_in disk1 name) kd) kd listing =
  foldl (fun kd name => fold_file name (records_in disk2 name) kd) kd listing.
Proof.
  induction listing as [|name listing IH]; intros kd Hd; [done|].
  cbn [foldl]. rewrite (Hd name) by by left.
  apply IH. intros name' Hin. apply Hd. by right.
Qed.

Lemma throws_iff disk1 disk2 listing :
  (forall name, name ∈ listing ->
                throws_in disk1 name <-> throws_in disk2 name) ->
  Exists (throws_in disk1) listing <-> Exists (throws_in disk2) listing.
Proof.
  intros Hd. rewrite !Exists_exists.
  split; intros (name & Hin & Hthrow); exists name; (split; [done|]);
    by apply (Hd name Hin).
Qed.

(** What [Open] gives depends on the records of the listed files and on
    which of them throw. *)
Lemma recovery_ext listing now disk1 disk2 :
  (forall name, name ∈ listing ->
                records_in disk1 name = records_in disk2 name) ->
  (forall name, name ∈ listing ->
                throws_in disk1 name <-> throws_in disk2 name) ->
  recovery listing now disk1 = recovery listing now disk2.
Proof.
  intros Hrec Hthrow. rewrite !recovery_outcome. unfold recovered.
  rewrite (recovered_records_ext disk1 disk2 listing ∅ Hrec).
  by apply decide_ext, throws_iff.
Qed.

(** ** The marker is never read back *)

Lemma tombstone_nonempty : kTombstoneValue <> [].
Proof. discriminate. Qed.

Lemma opened_never_marker listing now disk k :
  Get k (opened listing now disk) <> Value kTombstoneValue.
Proof.
  destruct (key_dir_ (opened listing now disk).1 !! k) as [e|] eqn:Hk;
    [|by rewrite Get_absent].
  destruct (opened_entry listing now disk k e Hk)
    as (name & start & r & Hin & Hr & Hkey & Hval & ->).
  destruct (decide (name = segment_name now)) as [->|Hne].
  - assert ((opened listing now disk).2 !! segment_name now = Some [])
      as Hempty by apply lookup_insert_eq.
    destruct (opened listing now disk) as [bc disk'].
    cbn [fst snd] in Hk, Hempty. unfold Get. rewrite Hk. unfold ifstream.
    cbn [entry_of KeyDirEntry.file_id]. rewrite Hempty.
    unfold seekg, istream_read. cbn [is_fail is_data is_pos].
    case_decide; cbn [is_fail is_data is_pos]; [done|].
    rewrite drop_nil. case_decide; cbn [is_fail]; [|done].
    rewrite take_nil. intros Heq. discriminate Heq.
  - rewrite (opened_Get listing now disk k name start r) by done.
    congruence.
Qed.


(** * The claims *)

(** C1. On any store, right after [Put(k, v)] the call [Get(k)] returns
    exactly [v]: for every key, the empty key included, whether or not the
    key was written before; a second [Put] on the key wins over the first. *)
Theorem Get_after_Put :
  (forall (w : World) time_us k v, Get k (Put time_us k v w) = Value v) /\
  (forall (w : World) time_us v, Get [] (Put time_us [] v w) = Value v) /\
  (forall (w : World) t1 t2 k v1 v2,
     Get k (Put t2 k v2 (Put t1 k v1 w)) = Value v2) /\
  (forall listing now disk (w0 : World) ops time_us k v,
     Open listing now disk = Returns w0 ->
     Get k (Put time_us k v (run ops w0)) = Value v).
Proof.
  split_and!; intros; apply Get_Put.
Qed.

(** C2 on the code: two sessions, the first puts a key, the second deletes
    it.  Opening the directory with the segments in the order they were
    written leaves the key out; with the segment of the second session
    first, the key is back with its old value. *)
Theorem Open_depends_on_segment_order :
  (w1 ← run [OpPut 11 (str "k") (str "v")] <$> Open [] 10 ∅;
   w2 ← run [OpDelete 21 (str "k")] <$> Open ["10.cask"%string] 20 w1.2;
   w3 ← Open ["10.cask"; "20.cask"]%string 30 w2.2;
   w3' ← Open ["20.cask"; "10.cask"]%string 30 w2.2;
   Returns (Get (str "k") w2, Get (str "k") w3, Get (str "k") w3')) =
  Returns (MissingKeyException (str "k"), MissingKeyException (str "k"),
           Value (str "v")).
Proof. vm_compute. reflexivity. Qed.

(** C3, as the code has it. [Put] stores the entry of the new record
    whatever entry the KeyDir holds for the key: it compares no timestamps.
    Keeping an entry that is at least as late as the record is what the
    loop of [Open] does. *)
Theorem Put_overwrites_any_entry (time_us : Z) (k v : list byte) (w : World) :
  key_dir_ (Put time_us k v w).1 !! k =
    Some (put_entry (db_path_ w.1) (length (f_ w.1)) time_us k v) /\
  KeyDirEntry.timestamp
    (put_entry (db_path_ w.1) (length (f_ w.1)) time_us k v) = time_us /\
  (forall path start e kd existing,
     kd !! CaskEntry.key e = Some existing ->
     KeyDirEntry.timestamp existing >= CaskEntry.timestamp e ->
     load_entry path start e kd = kd).
Proof.
  split_and!; [apply Put_lookup|done|].
  intros path start e kd existing Hk Hge. unfold load_entry, outdated.
  rewrite Hk. by rewrite bool_decide_eq_true_2.
Qed.

Lemma Put_overwrites_any_entry_witness :
  exists w0 : World,
    Open [] 0 ∅ = Returns w0 /\
    let w := Put 100 (str "k") (str "a") w0 in
    key_dir_ (Put 100 (str "k") (str "b") w).1 !! str "k" =
      Some (KeyDirEntry.Build "0.cask" 1 51 100) /\
    load_entry "0.cask" 26 (put_record 100 (str "k") (str "b"))
      (key_dir_ w.1) = key_dir_ w.1.
Proof.
  exists (opened [] 0 ∅). split; [reflexivity|]. intros w.
  pose proof (Put_overwrites_any_entry 100 (str "k") (str "b") w)
    as (Hput & _ & Hload).
  split; [exact Hput|].
  apply (Hload _ _ _ _ (KeyDirEntry.Build "0.cask" 1 25 100));
    vm_compute; [reflexivity|discriminate].
Defined.

(** C3 as stated fails: the KeyDir holds an entry with timestamp 100 for
    the key, a [Put] with clock reading 100 comes, and the entry changes. *)
Lemma Put_keeps_newer_entry_counterexample :
  exists w0 : World,
    Open [] 0 ∅ = Returns w0 /\
    let w := Put 100 (str "k") (str "a") w0 in
    let existing := KeyDirEntry.Build "0.cask" 1 25 100 in
    key_dir_ w.1 !! str "k" = Some existing /\
    KeyDirEntry.timestamp existing >= 100 /\
    key_dir_ (Put 100 (str "k") (str "b") w).1 !! str "k" <> Some existing.
Proof.
  exists (opened [] 0 ∅). split; [reflexivity|]. intros w existing.
  split_and!.
  - vm_compute. reflexivity.
  - vm_compute. discriminate.
  - vm_compute. discriminate.
Qed.

(** C4. [Get(k)] throws [MissingKeyException] exactly when the KeyDir has
    no entry for [k]; when it has one, [Get] reads [value_sz] bytes at
    [value_pos] of the file the entry names and returns them as they are,
    whatever they are. *)
Theorem Get_missing_iff_absent (k : list byte) (w : World) :
  (Get k w = MissingKeyException k <-> key_dir_ w.1 !! k = None) /\
  (forall k', Get k w = MissingKeyException k' -> k' = k) /\
  (forall e data,
     key_dir_ w.1 !! k = Some e ->
     w.2 !! KeyDirEntry.file_id e = Some data ->
     0 <= KeyDirEntry.value_pos e ->
     (Z.to_nat (KeyDirEntry.value_sz e)
        <= length data - Z.to_nat (KeyDirEntry.value_pos e))%nat ->
     Get k w =
       Value (take (Z.to_nat (KeyDirEntry.value_sz e))
                (drop (Z.to_nat (KeyDirEntry.value_pos e)) data))).
Proof.
  destruct w as [bc disk]. cbn [fst snd]. split_and!.
  - split; [|apply (Get_absent k (bc, disk))].
    unfold Get. destruct (key_dir_ bc !! k) as [e|]; [|done].
    destruct (istream_read _ _) as [got input]. by destruct (is_fail input).
  - intros k'. unfold Get. destruct (key_dir_ bc !! k) as [e|]; [|congruence].
    destruct (istream_read _ _) as [got input]. by destruct (is_fail input).
  - intros e data. apply Get_read.
Qed.

Lemma Get_missing_iff_absent_witness :
  Put 1 (str "Hello") (str "val") <$> Open [] 0 ∅ = Returns hello_world /\
  Get (str "Hello") hello_world = Value (str "val") /\
  Get (str "huh??") hello_world = MissingKeyException (str "huh??").
Proof.
  split_and!.
  - reflexivity.
  - refine (proj2 (proj2 (Get_missing_iff_absent (str "Hello") hello_world))
              (KeyDirEntry.Build "0.cask" 3 29 1)
              (encode (put_record 1 (str "Hello") (str "val"))) _ _ _ _);
      vm_compute; (reflexivity || lia || discriminate).
  - apply (proj2 (proj1 (Get_missing_iff_absent (str "huh??") hello_world))).
    vm_compute. reflexivity.
Defined.

(** C5. [Delete(k)] on a key the KeyDir does not hold changes nothing.  On
    a key it holds, it appends the tombstone record, the very write
    [Put(k, kTombstoneValue)] does, and removes [k] from the KeyDir; from
    then on [Get(k)] throws until [k] is put again, and a later [Put(k, v)]
    makes [v] readable. *)
Theorem Delete_appends_tombstone (time_us : Z) (k : list byte) (w : World) :
  (key_dir_ w.1 !! k = None -> Delete time_us k w = w) /\
  (is_Some (key_dir_ w.1 !! k) ->
     CaskEntry.value (put_record time_us k kTombstoneValue) = kTombstoneValue /\
     f_ (Delete time_us k w).1 =
       f_ w.1 ++ encode (put_record time_us k kTombstoneValue) /\
     f_ (Delete time_us k w).1 = f_ (Put time_us k kTombstoneValue w).1 /\
     (Delete time_us k w).2 = (Put time_us k kTombstoneValue w).2 /\
     key_dir_ (Delete time_us k w).1 = delete k (key_dir_ w.1)) /\
  (forall ops, Forall (fun o => ~ is_put_on k o) ops ->
     Get k (run ops (Delete time_us k w)) = MissingKeyException k) /\
  (forall ops t v,
     Get k (Put t k v (run ops (Delete time_us k w))) = Value v).
Proof.
  destruct w as [bc disk]. cbn [fst snd]. split_and!.
  - intros Hk. by rewrite Delete_eq, Hk.
  - intros [e Hk]. rewrite Delete_eq, Put_eq, Hk. done.
  - intros ops Hno. apply Get_absent, run_absent; [apply Delete_lookup|done].
  - intros. apply Get_Put.
Qed.

Lemma Delete_appends_tombstone_witness :
  Put 1 (str "Hello") (str "val") <$> Open [] 0 ∅ = Returns hello_world /\
  Delete 2 (str "huh??") hello_world = hello_world /\
  key_dir_ (Delete 2 (str "Hello") hello_world).1 = ∅ /\
  Get (str "Hello")
    (run [OpPut 3 (str "123") (str "something"); OpDelete 4 (str "Hello")]
       (Delete 2 (str "Hello") hello_world))
    = MissingKeyException (str "Hello").
Proof.
  pose proof (Delete_appends_tombstone 2 (str "huh??") hello_world) as Habsent.
  pose proof (Delete_appends_tombstone 2 (str "Hello") hello_world) as Hheld.
  split_and!.
  - reflexivity.
  - apply (proj1 Habsent). vm_compute. reflexivity.
  - destruct Hheld as (_ & Hdel & _).
    assert (is_Some (key_dir_ hello_world.1 !! str "Hello")) as Hsome
      by (vm_compute; by eexists).
    destruct (Hdel Hsome) as (_ & _ & _ & _ & Heq). rewrite Heq.
    vm_compute. reflexivity.
  - apply (proj1 (proj2 (proj2 Hheld))).
    by_decide.
Defined.




(** C7. The bytes of a record are its timestamp in 8 bytes, its key size
    and its value size in 8 bytes each, the key and the value.  Decoding
    them, whatever follows, gives the record back and consumes exactly
    8 + 8 + 8 + key_sz + value_sz bytes; the same holds in the middle of a
    stream, which is left good.  Decoding a strict prefix of them fails
    with a short read.  Nothing is thrown in either case. *)
Theorem decode_encode (r : CaskEntry.t) (rest : list byte) :
  wf_entry r ->
  encode r =
    le_split 8 (CaskEntry.timestamp r) ++ le_split 8 (CaskEntry.key_sz r) ++
    le_split 8 (CaskEntry.value_sz r) ++ CaskEntry.key r ++ CaskEntry.value r /\
  (forall output, insert_entry r output = output ++ encode r) /\
  Z.of_nat (length (encode r)) =
    8 + 8 + 8 + CaskEntry.key_sz r + CaskEntry.value_sz r /\
  decode (encode r ++ rest) = Returns (Some (r, length (encode r))) /\
  (forall pre e0,
     extract e0 (Istream (pre ++ encode r ++ rest) (length pre) false) =
       Returns (r, Istream (pre ++ encode r ++ rest)
                     (length pre + length (encode r)) false)) /\
  (forall p q, encode r = p ++ q -> q <> [] -> decode p = Returns None).
Proof.
  intros Hwf. split_and!.
  - apply encode_eq.
  - intros output. apply insert_entry_encode.
  - destruct Hwf as (_ & Hk & Hv & _). rewrite length_encode, Hk, Hv. lia.
  - rewrite decode_parse, parse_encode by done.
    rewrite decide_False; [done|].
    eapply parse_not_oversized. by apply parse_encode.
  - intros pre e0. apply extract_parse_Some.
    rewrite drop_app_length. by apply parse_encode.
  - intros p q Henc Hq. rewrite decode_parse.
    rewrite (parse_truncated r p q) by done.
    rewrite decide_False; [done|]. by eapply truncated_not_oversized.
Qed.

Lemma decode_encode_witness :
  decode (encode (put_record 7 (str "Hello") (str "val")) ++ str "next")
    = Returns (Some (put_record 7 (str "Hello") (str "val"), 32%nat)) /\
  decode (take 31 (encode (put_record 7 (str "Hello") (str "val"))))
    = Returns None.
Proof.
  assert (wf_entry (put_record 7 (str "Hello") (str "val"))) as Hwf
    by by_decide.
  pose proof (decode_encode (put_record 7 (str "Hello") (str "val"))
                (str "next") Hwf) as (_ & _ & _ & Hdec & _ & Htrunc).
  split; [exact Hdec|].
  apply (Htrunc _ (str "l")); [vm_compute; reflexivity|discriminate].
Defined.

(** C8. A segment that ends in a truncated record, the strict prefix of
    the bytes of a record: the records before it are folded into the
    KeyDir and the short read ends the segment, nothing is thrown.  What
    [Open] gives is what it gives when the truncated tail is not there at
    all; on this segment alone [Open] returns, with the KeyDir of the
    records before the tail. *)
Theorem truncated_tail_ends_segment (listing : list string) (now : Z)
    (disk : Disk) (name : string) (es : list CaskEntry.t) (r : CaskEntry.t)
    (p q : list byte) :
  disk !! name = Some (encode_all es ++ p) ->
  Forall wf_entry es -> wf_entry r -> encode r = p ++ q -> q <> [] ->
  (extension name = kCaskSuffix ->
   forall kd, load_file disk kd name = Returns (fold_records name 0 es kd)) /\
  recovery listing now disk =
    recovery listing now (<[name := encode_all es]> disk) /\
  (extension name = kCaskSuffix ->
   exists w0 : World,
     Open [name] now disk = Returns w0 /\
     key_dir_ w0.1 = fold_records name 0 es ∅ /\
     forall k e, key_dir_ w0.1 !! k = Some e ->
                 exists r', r' ∈ es /\ CaskEntry.key r' = k).
Proof.
  intros Hfile Hes Hr Henc Hq.
  assert (parse p = None) as Hp by by eapply parse_truncated.
  assert (~ oversized p) as Hover by by eapply truncated_not_oversized.
  assert (forall kd, extension name = kCaskSuffix ->
            load_file disk kd name = Returns (fold_records name 0 es kd))
    as Hload.
  { intros kd Hext. by apply (load_file_records disk kd name es p). }
  split_and!.
  - intros Hext kd. by apply Hload.
  - apply recovery_ext.
    + intros name' _. destruct (decide (name' = name)) as [->|Hne].
      * destruct (decide (extension name = kCaskSuffix)) as [Hext|Hext].
        -- rewrite (records_in_records disk name es p) by done.
           rewrite (records_in_records _ name es []);
             [done|done| |done|apply parse_nil].
           by rewrite lookup_insert_eq, app_nil_r.
        -- unfold records_in. by rewrite !decide_False.
      * apply records_in_ext. intros _. by rewrite lookup_insert_ne.
    + intros name' _. destruct (decide (name' = name)) as [->|Hne].
      * split; intros Hthrow; exfalso; revert Hthrow.
        -- by apply (not_throws_records disk name es p).
        -- apply (not_throws_records _ name es []);
             [|done|apply parse_nil|apply not_oversized_nil].
           by rewrite lookup_insert_eq, app_nil_r.
      * apply throws_in_ext. intros _. by rewrite lookup_insert_ne.
  - intros Hext. exists (opened [name] now disk).
    assert (key_dir_ (opened [name] now disk).1 = fold_records name 0 es ∅)
      as Hkd.
    { rewrite opened_key_dir. cbn [foldl].
      rewrite (records_in_records disk name es p) by done.
      apply fold_file_with_offsets. }
    split_and!.
    + apply Open_opened. rewrite Exists_cons, Exists_nil.
      intros [Hthrow|[]]. revert Hthrow.
      by apply (not_throws_records disk name es p).
    + exact Hkd.
    + intros k e Hk.
      destruct (opened_entry [name] now disk k e Hk)
        as (name' & start & r' & Hin & Hr' & Hkey & _).
      apply list_elem_of_singleton in Hin as ->.
      rewrite (records_in_records disk name es p) in Hr' by done.
      exists r'. split; [|done].
      rewrite <- (with_offsets_snd es 0). apply list_elem_of_fmap.
      by exists (start, r').
Qed.

Lemma truncated_tail_ends_segment_witness :
  let whole := encode (put_record 1 (str "Hello") (str "val")) in
  let cut := take 30 (encode (put_record 2 (str "Goodbye") (str "x"))) in
  let disk : Disk := {[ "0.cask"%string := whole ++ cut ]} in
  exists w0 : World,
    Open ["0.cask"%string] 5 disk = Returns w0 /\
    key_dir_ w0.1 !! str "Hello" =
      Some (KeyDirEntry.Build "0.cask" 3 29 1) /\
    key_dir_ w0.1 !! str "Goodbye" = None.
Proof.
  intros whole cut disk.
  pose proof (truncated_tail_ends_segment ["0.cask"%string] 5 disk "0.cask"
                [put_record 1 (str "Hello") (str "val")]
                (put_record 2 (str "Goodbye") (str "x"))
                cut (str "ex")) as Hthm.
  destruct Hthm as (_ & _ & Hopen).
  - vm_compute. reflexivity.
  - by_decide.
  - by_decide.
  - vm_compute. reflexivity.
  - discriminate.
  - destruct (Hopen eq_refl) as (w0 & Hw0 & Hkd & _).
    exists w0. rewrite Hkd. split; [exact Hw0|].
    vm_compute. split; reflexivity.
Defined.

(** C9. [ListKeys] returns the keys of the KeyDir, each once.  After a
    session these are the keys whose last call was a [Put], together with
    the keys the session did not touch and the store held before; a key
    whose last call was a [Delete] is not listed.  The order is that of the
    map.  After [Put("X","1"); Put("Y","2"); Put("X","3"); Delete("Y")] on
    a fresh store the list is ["X"]. *)
Theorem ListKeys_live_keys (ops : list Op) (w : World) :
  NoDup (ListKeys (run ops w)) /\
  (forall k, k ∈ ListKeys (run ops w) <->
             is_Some (key_dir_ (run ops w).1 !! k)) /\
  (forall k, k ∈ ListKeys (run ops w) <->
             match last_op k ops with
             | Some (OpPut _ _ _) => True
             | Some (OpDelete _ _) => False
             | None => k ∈ ListKeys w
             end) /\
  (forall now t1 t2 t3 t4,
     exists w0 : World,
       Open [] now ∅ = Returns w0 /\
       ListKeys (run [OpPut t1 (str "X") (str "1");
                      OpPut t2 (str "Y") (str "2");
                      OpPut t3 (str "X") (str "3"); OpDelete t4 (str "Y")]
                   w0) = [str "X"]).
Proof.
  assert (forall w' : World, NoDup (ListKeys w')) as Hnodup.
  { intros w'. unfold ListKeys. apply NoDup_fst_map_to_list. }
  assert (forall (w' : World) k,
            k ∈ ListKeys w' <-> is_Some (key_dir_ w'.1 !! k)) as Hin.
  { intros w' k. unfold ListKeys. rewrite list_elem_of_fmap. split.
    - intros ([k' e] & -> & Hke). apply elem_of_map_to_list in Hke. by exists e.
    - intros [e Hke]. exists (k, e). split; [done|].
      by apply elem_of_map_to_list. }
  assert (forall ops' (w' : World) k,
            k ∈ ListKeys (run ops' w') <->
            match last_op k ops' with
            | Some (OpPut _ _ _) => True
            | Some (OpDelete _ _) => False
            | None => k ∈ ListKeys w'
            end) as Hlast.
  { intros ops' w' k. rewrite !Hin. pose proof (run_last_op ops' w' k) as Hl.
    destruct (last_op k ops') as [[t k' v|t k']|].
    - destruct Hl as (e & -> & _). split; [done|by eexists].
    - rewrite Hl. split; [by intros [? ?]|done].
    - by rewrite Hl. }
  split_and!; [apply Hnodup|apply Hin|apply Hlast|].
  intros now t1 t2 t3 t4.
  exists (opened [] now ∅). split; [reflexivity|].
  set (w' := run _ _).
  assert (forall k, k ∈ ListKeys w' <-> k = str "X") as Hx.
  { intros k. unfold w'. rewrite Hlast. unfold last_op.
    rewrite !filter_cons, filter_nil. cbn [op_key].
    destruct (decide (str "X" = k)) as [<-|HX].
    - rewrite decide_False by (intros H; discriminate H). done.
    - destruct (decide (str "Y" = k)) as [<-|HY]; cbn [last].
      + split; [done|]. intros H; discriminate H.
      + split; [|done]. intros Hk. apply Hin in Hk as [e Hk].
        unfold opened, Bitcask_new in Hk. by cbn in Hk. }
  assert (ListKeys w' ≡ₚ [str "X"]) as Hperm.
  { apply NoDup_Permutation; [apply Hnodup|apply NoDup_singleton|].
    intros k. rewrite Hx. by rewrite list_elem_of_singleton. }
  by apply Permutation_singleton_r in Hperm.
Qed.

(** C10, as the code has it.  A [Put] of the tombstone marker as a value:
    [Get] returns the marker for the rest of the session, as long as the
    calls are on other keys, and the record in the segment holds the
    marker as it is.  The loop of [Open] does with a record of this value
    what it does with a tombstone: it skips it when the KeyDir holds an
    entry of the key that is at least as late, and erases the key
    otherwise.  So no store that [Open] returns, on any directory, reads
    the marker back as a value.  The key is absent once the directory is
    opened again when the calls on the key before the [Put] have earlier
    clock readings, the recovered entry of the key is older, and the
    segments are read in the order they were written. *)
Theorem marker_value_is_lost_on_reopen (listing : list string) (now : Z)
    (disk : Disk) (w0 : World) (ops1 ops2 : list Op) (time_us : Z)
    (k : list byte) :
  Open listing now disk = Returns w0 ->
  Forall (fun o => op_key o <> k) ops2 ->
  Get k (Put time_us k kTombstoneValue (run ops1 w0)) = Value kTombstoneValue /\
  Get k (run (ops1 ++ OpPut time_us k kTombstoneValue :: ops2) w0)
    = Value kTombstoneValue /\
  put_record time_us k kTombstoneValue
    ∈ written (ops1 ++ OpPut time_us k kTombstoneValue :: ops2) w0 /\
  (forall path start e kd,
     CaskEntry.value e = kTombstoneValue ->
     load_entry path start e kd =
       if outdated (kd !! CaskEntry.key e) e then kd
       else delete (CaskEntry.key e) kd) /\
  (forall listing' now' disk' (w' : World) k',
     Open listing' now' disk' = Returns w' ->
     Get k' w' <> Value kTombstoneValue) /\
  (segment_name now ∉ listing ->
   Forall op_sized (ops1 ++ OpPut time_us k kTombstoneValue :: ops2) ->
   (forall e, key_dir_ w0.1 !! k = Some e ->
              KeyDirEntry.timestamp e < time_us) ->
   Forall (fun o => op_key o = k -> op_time o < time_us) ops1 ->
   forall now',
     exists w' : World,
       Open (listing ++ [segment_name now]) now'
         (run (ops1 ++ OpPut time_us k kTombstoneValue :: ops2) w0).2
         = Returns w' /\
       key_dir_ w'.1 !! k = None /\
       Get k w' = MissingKeyException k).
Proof.
  intros Hopen Hafter.
  apply Open_Returns in Hopen as [-> Hok].
  set (w0 := opened listing now disk).
  set (ops := ops1 ++ OpPut time_us k kTombstoneValue :: ops2).
  split_and!.
  - apply Get_Put.
  - apply (run_last_op_Get ops w0 k time_us); [apply opened_synced|].
    unfold ops. by apply last_op_middle.
  - unfold ops. rewrite written_app. apply elem_of_app. right.
    cbn [written op_records]. left.
  - intros path start e kd Hv. by apply load_entry_marker.
  - intros listing' now' disk' w' k' Hopen'.
    apply Open_Returns in Hopen' as [-> _]. apply opened_never_marker.
  - intros Hfresh Hsized Hold Hbefore now'.
    exists (opened (listing ++ [segment_name now]) now' (run ops w0).2).
    assert (key_dir_ (opened (listing ++ [segment_name now]) now'
                        (run ops w0).2).1 !! k = None) as Habsent.
    { unfold w0. rewrite reopen_key_dir by done. fold w0.
      unfold ops. rewrite written_app. cbn [written op_records].
      rewrite fold_records_app. cbn [app fold_records].
      rewrite fold_records_other by by apply written_keys.
      rewrite load_entry_marker by done.
      cbn [put_record CaskEntry.key].
      pose proof (fold_records_older (segment_name now) (written ops1 w0) 0
                    (key_dir_ w0.1) k time_us Hold
                    (written_older ops1 w0 k time_us Hbefore)) as Holder.
      unfold outdated.
      destruct (fold_records _ 0 (written ops1 w0) _ !! k) as [e|] eqn:Hk1.
      - specialize (Holder e eq_refl).
        rewrite bool_decide_eq_false_2 by (cbn; lia).
        apply lookup_delete_eq.
      - apply lookup_delete_eq. }
    split_and!.
    + by apply reopen_Open.
    + exact Habsent.
    + by apply Get_absent.
Qed.

Lemma marker_value_is_lost_on_reopen_witness :
  let ops := [OpPut 1 (str "k") (str "val");
              OpPut 2 (str "k") kTombstoneValue;
              OpDelete 3 (str "Hello")] in
  exists w0 w' : World,
    Open [] 0 ∅ = Returns w0 /\
    Get (str "k") (run ops w0) = Value kTombstoneValue /\
    Open ([] ++ [segment_name 0]) 4 (run ops w0).2 = Returns w' /\
    Get (str "k") w' = MissingKeyException (str "k").
Proof.
  intros ops. exists (opened [] 0 ∅).
  pose proof (marker_value_is_lost_on_reopen [] 0 ∅ (opened [] 0 ∅)
                [OpPut 1 (str "k") (str "val")]
                [OpDelete 3 (str "Hello")] 2 (str "k")) as Hthm.
  destruct Hthm as (_ & Hget & _ & _ & _ & Hgone).
  - reflexivity.
  - apply Forall_singleton. discriminate.
  - destruct (Hgone ltac:(apply not_elem_of_nil) ltac:(by_decide)) with (now' := 4)
      as (w' & Hopen & _ & Hmiss).
    + intros e He. vm_compute in He. discriminate He.
    + apply Forall_singleton. intros _. reflexivity.
    + exists w'. split_and!; [reflexivity|exact Hget|exact Hopen|exact Hmiss].
Defined.

(** C10 as stated fails when the clock does not advance: after [Put(k,
    val)] and [Put(k, marker)] with the same clock reading [Get(k)]
    returns the marker, and once the directory is opened again the key is
    not absent: [Get(k)] returns the old value. *)
Lemma marker_put_at_same_clock_counterexample :
  (w ← run [OpPut 5 (str "k") (str "val");
            OpPut 5 (str "k") kTombstoneValue] <$> Open [] 0 ∅;
   w' ← Open ["0.cask"%string] 9 w.2;
   Returns (Get (str "k") w, Get (str "k") w')) =
  Returns (Value kTombstoneValue, Value (str "val")).
Proof. vm_compute. reflexivity. Qed.

(** * Beyond the claims *)

(** A segment is the bytes of its records and a tail that holds no record;
    it makes [Open] throw when the tail starts with an oversized header. *)
Lemma parse_all_split fuel : forall pos bs,
  (length bs < fuel)%nat ->
  exists tail,
    bs = encode_all (parse_all fuel pos bs).*2 ++ tail /\
    parse tail = None /\
    (throws_after fuel bs <-> oversized tail).
Proof.
  induction fuel as [|fuel IH]; intros pos bs Hfuel; [lia|].
  cbn [parse_all throws_after].
  destruct (parse bs) as [[e n]|] eqn:Hp.
  - pose proof (parse_consumed bs e n Hp) as Hn.
    apply parse_inv in Hp as (_ & -> & Htake).
    destruct (IH (pos + length (encode e))%nat (drop (length (encode e)) bs))
      as (tail & Hsplit & Htail & Hthrow); [rewrite length_drop; lia|].
    exists tail. split_and!; [|done|done].
    rewrite fmap_cons, encode_all_cons, <- app_assoc, <- Hsplit.
    cbn [snd]. rewrite <- Htake at 1. by rewrite take_drop.
  - exists bs. by split_and!.
Qed.

(** X1. Recovery, whatever the files hold.  [Open] takes the files in the
    order of the listing and skips those without the suffix.  A segment is
    the bytes of the records decoded from it, each of them a record [Put]
    could have written, and a tail that holds no record.  When the tail of
    a listed segment starts with a header holding a size above
    [max_size()], [Open] throws [std::length_error]; otherwise it returns
    the store on the KeyDir folded from the records of each file, in file
    order.  The loop never stops for lack of turns. *)
Theorem Open_folds_records_in_file_order (listing : list string) (now : Z)
    (disk : Disk) :
  Open listing now disk =
    (if decide (Exists (throws_in disk) listing) then Throws length_error
     else Returns
            (Bitcask_new (segment_name now)
               (foldl (fun kd name =>
                         if decide (extension name = kCaskSuffix)
                         then foldl (fun kd '(start, e) =>
                                       load_entry name (Z.of_nat start) e kd)
                                kd (segment_records (contents disk name))
                         else kd) ∅ listing)
               disk)) /\
  (forall name,
     exists tail,
       contents disk name =
         encode_all (segment_records (contents disk name)).*2 ++ tail /\
       parse tail = None /\
       (throws_in disk name <->
        extension name = kCaskSuffix /\ oversized tail)) /\
  (forall name, Forall (fun se => wf_entry se.2)
                  (segment_records (contents disk name))) /\
  (forall fuel path data e0 kd,
     (replay_fuel (Istream data 0 false) <= fuel)%nat ->
     replay_loop fuel path (Istream data 0 false) e0 kd =
       replay_loop (replay_fuel (Istream data 0 false)) path
         (Istream data 0 false) e0 kd).
Proof.
  split_and!.
  - rewrite Open_outcome. case_decide as Hthrow; [done|]. clear Hthrow.
    unfold opened, recovered. do 2 f_equal.
    generalize (∅ : KeyDirMap).
    induction listing as [|name listing IH]; intros kd; [done|].
    cbn [foldl]. rewrite <- IH. f_equal. unfold records_in, fold_file.
    by case_decide.
  - intros name. unfold segment_records.
    destruct (parse_all_split (S (length (contents disk name))) 0
                (contents disk name)) as (tail & Hsplit & Htail & Hthrow);
      [lia|].
    exists tail. split_and!; [done|done|].
    unfold throws_in, segment_throws. by rewrite Hthrow.
  - intros name. unfold segment_records.
    assert (forall fuel pos bs,
              Forall (fun se : nat * CaskEntry.t => wf_entry se.2)
                (parse_all fuel pos bs)) as Hall; [|apply Hall].
    intros fuel. induction fuel as [|fuel IH]; intros pos bs;
      [apply Forall_nil_2|].
    cbn [parse_all].
    destruct (parse bs) as [[e n]|] eqn:Hp; [|apply Forall_nil_2].
    apply Forall_cons. split; [|apply IH].
    by apply parse_inv in Hp as [Hwf _].
  - intros fuel path data e0 kd. apply replay_loop_fuel.
Qed.

(** X2. Only the files with the suffix count.  What [Open] gives, the
    KeyDir or the exception, is the same on two directories that agree on
    the files with the suffix, and the same when the names without the
    suffix are struck from the listing; on a directory without such a file
    [Open] returns and the store is empty. *)
Theorem Open_reads_cask_files_only (listing : list string) (now : Z)
    (disk : Disk) :
  (forall disk' : Disk,
     (forall name, extension name = kCaskSuffix -> disk !! name = disk' !! name) ->
     recovery listing now disk' = recovery listing now disk) /\
  recovery (filter (fun name => extension name = kCaskSuffix) listing)
    now disk = recovery listing now disk /\
  (Forall (fun name => extension name <> kCaskSuffix) listing ->
   exists w0 : World,
     Open listing now disk = Returns w0 /\
     ListKeys w0 = [] /\
     forall k, Get k w0 = MissingKeyException k).
Proof.
  split_and!.
  - intros disk' Hagree. apply recovery_ext; intros name _.
    + symmetry. apply records_in_ext, Hagree.
    + symmetry. apply throws_in_ext, Hagree.
  - rewrite !recovery_outcome.
    assert (recovered
              (filter (fun name => extension name = kCaskSuffix) listing) disk
            = recovered listing disk) as ->.
    { unfold recovered. generalize (∅ : KeyDirMap).
      induction listing as [|name listing IH]; intros kd; [done|].
      rewrite filter_cons. cbn [foldl]. case_decide as Hext.
      - cbn [foldl]. apply IH.
      - rewrite IH. f_equal. unfold records_in. by rewrite decide_False. }
    apply decide_ext. rewrite !Exists_exists.
    split; intros (name & Hin & Hthrow); exists name; (split; [|done]).
    + by apply list_elem_of_filter in Hin as [_ Hin].
    + apply list_elem_of_filter. split; [by destruct Hthrow|done].
  - intros Hnone. exists (opened listing now disk).
    assert (key_dir_ (opened listing now disk).1 = ∅) as Hempty.
    { rewrite opened_key_dir. generalize (∅ : KeyDirMap).
      induction listing as [|name listing IH]; intros kd; [done|].
      apply Forall_cons in Hnone as [Hext Hnone]. cbn [foldl].
      rewrite IH by done. unfold records_in. by rewrite decide_False. }
    split_and!.
    + apply Open_opened. rewrite Exists_exists.
      intros (name & Hin & Hext & _).
      rewrite Forall_forall in Hnone. by apply (Hnone name Hin).
    + unfold ListKeys. rewrite Hempty. by rewrite map_to_list_empty.
    + intros k. apply Get_absent. by rewrite Hempty.
Qed.

Lemma Open_reads_cask_files_only_witness :
  let disk : Disk :=
    {[ "notes.txt"%string := encode (put_record 1 (str "k") (str "v")) ]} in
  exists w0 : World,
    Open ["notes.txt"%string] 0 disk = Returns w0 /\
    ListKeys w0 = [] /\
    forall k, Get k w0 = MissingKeyException k.
Proof.
  intros disk.
  apply (proj2 (proj2 (Open_reads_cask_files_only
                         ["notes.txt"%string] 0 disk))).
  by_decide.
Defined.



(** X4. Segments that share no key can be read in any order: when the files
    of the listing hold records of pairwise disjoint sets of keys, every
    permutation of the listing gives the same, the KeyDir or the
    exception.  A key that one file only holds records of is recovered as
    from that file alone. *)
Theorem Open_order_free_on_disjoint_keys (listing listing' : list string)
    (now : Z) (disk : Disk) :
  NoDup listing ->
  (forall n1 n2 k, n1 ∈ listing -> n2 ∈ listing -> n1 <> n2 ->
                   k ∈ keys_in disk n1 -> k ∉ keys_in disk n2) ->
  listing ≡ₚ listing' ->
  recovery listing now disk = recovery listing' now disk /\
  (forall name k (w' : World),
     name ∈ listing -> k ∈ keys_in disk name ->
     Open listing' now disk = Returns w' ->
     exists w1 : World,
       Open [name] now disk = Returns w1 /\
       key_dir_ w'.1 !! k = key_dir_ w1.1 !! k).
Proof.
  intros Hnodup Hdisj Hperm.
  assert (forall l name k,
            l ≡ₚ listing -> name ∈ l -> k ∈ keys_in disk name ->
            key_dir_ (opened l now disk).1 !! k =
              fold_file name (records_in disk name) ∅ !! k) as Hone.
  { intros l name k Hl Hin Hk.
    apply list_elem_of_split in Hin as (l1 & l2 & ->).
    apply opened_isolated_key. intros name' Hin'.
    assert (NoDup (l1 ++ name :: l2)) as Hnd by by rewrite Hl.
    apply NoDup_app in Hnd as (_ & Hnd12 & Hnd2).
    apply NoDup_cons in Hnd2 as [Hn2 _].
    assert (name' <> name) as Hne.
    { intros ->. apply elem_of_app in Hin' as [Hin'|Hin']; [|done].
      apply (Hnd12 name Hin'). by left. }
    apply (Hdisj name name' k); [| |done|done].
    - rewrite <- Hl. apply elem_of_app. right. by left.
    - rewrite <- Hl. apply elem_of_app in Hin' as [?|?];
        apply elem_of_app; [by left|right; by right]. }
  assert (forall l k,
            l ≡ₚ listing ->
            (forall name, name ∈ listing -> k ∉ keys_in disk name) ->
            key_dir_ (opened l now disk).1 !! k = None) as Hnone.
  { intros l k Hl Hk. rewrite opened_key_dir, fold_listing_other; [done|].
    intros name Hin. apply Hk. by rewrite <- Hl. }
  split.
  - rewrite !recovery_outcome.
    assert (recovered listing disk = recovered listing' disk) as ->.
    { change (key_dir_ (opened listing now disk).1 =
              key_dir_ (opened listing' now disk).1).
      apply map_eq. intros k.
      destruct (decide (Exists (fun name => k ∈ keys_in disk name) listing))
        as [Hex|Hex].
      + apply Exists_exists in Hex as (name & Hin & Hk).
        rewrite (Hone listing name k), (Hone listing' name k);
          [done|done|by rewrite <- Hperm|done|done|done|done].
      + rewrite (Hnone listing k), (Hnone listing' k); [done|done| |done|].
        * intros name Hin Hk. apply Hex, Exists_exists. by exists name.
        * intros name Hin Hk. apply Hex, Exists_exists. by exists name. }
    apply decide_ext. rewrite !Exists_exists.
    split; intros (name & Hin & Hthrow); exists name; (split; [|done]).
    + by rewrite <- Hperm.
    + by rewrite Hperm.
  - intros name k w' Hin Hk Hopen.
    apply Open_Returns in Hopen as [-> Hok].
    exists (opened [name] now disk). split.
    + apply Open_opened. rewrite Exists_cons, Exists_nil.
      intros [Hthrow|[]]. apply Hok, Exists_exists. exists name.
      split; [by rewrite <- Hperm|done].
    + rewrite (Hone listing' name k); [|done| |done].
      * rewrite opened_key_dir. done.
      * by rewrite <- Hperm.
Qed.

Lemma Open_order_free_on_disjoint_keys_witness :
  let disk : Disk :=
    {[ "10.cask"%string := encode (put_record 11 (str "key_0") (str "0"));
       "20.cask"%string := encode (put_record 21 (str "key_1") (str "1")) ]} in
  recovery ["10.cask"; "20.cask"]%string 30 disk =
    recovery ["20.cask"; "10.cask"]%string 30 disk.
Proof.
  intros disk.
  apply (Open_order_free_on_disjoint_keys
           ["10.cask"; "20.cask"]%string ["20.cask"; "10.cask"]%string 30 disk).
  - by_decide.
  - apply disjoint_keys_checked. by_decide.
  - apply perm_swap.
Defined.

(** X5. Every entry of the KeyDir of a store [Open] returns comes from a
    record of a listed file that holds the key and a value other than the
    tombstone marker, and points at the bytes of this value: [Get] returns
    it, unless the new segment took the name of that file. *)
Theorem Open_entries_point_at_values (listing : list string) (now : Z)
    (disk : Disk) (w0 : World) (k : list byte) (e : KeyDirEntry.t) :
  Open listing now disk = Returns w0 ->
  key_dir_ w0.1 !! k = Some e ->
  exists start r,
    KeyDirEntry.file_id e ∈ listing /\
    (start, r) ∈ records_in disk (KeyDirEntry.file_id e) /\
    CaskEntry.key r = k /\
    CaskEntry.value r <> kTombstoneValue /\
    e = entry_of (KeyDirEntry.file_id e) start r /\
    (KeyDirEntry.file_id e <> segment_name now ->
     Get k w0 = Value (CaskEntry.value r)).
Proof.
  intros Hopen Hk. apply Open_Returns in Hopen as [-> _].
  destruct (opened_entry listing now disk k e Hk)
    as (name & start & r & Hin & Hr & Hkey & Hval & ->).
  exists start, r. cbn [entry_of KeyDirEntry.file_id].
  split_and!; [done..|]. intros Hne. by apply (opened_Get _ _ _ _ name start).
Qed.

Lemma Open_entries_point_at_values_witness :
  let disk : Disk :=
    {[ "10.cask"%string := encode (put_record 11 (str "key_0") (str "0")) ]} in
  let e := KeyDirEntry.Build "10.cask" 1 29 11 in
  exists start r,
    KeyDirEntry.file_id e ∈ ["10.cask"%string] /\
    (start, r) ∈ records_in disk (KeyDirEntry.file_id e) /\
    CaskEntry.key r = str "key_0" /\
    CaskEntry.value r <> kTombstoneValue /\
    e = entry_of (KeyDirEntry.file_id e) start r /\
    (KeyDirEntry.file_id e <> segment_name 30 ->
     Get (str "key_0") (opened ["10.cask"%string] 30 disk)
       = Value (CaskEntry.value r)).
Proof.
  intros disk e.
  apply (Open_entries_point_at_values ["10.cask"%string] 30 disk
           (opened ["10.cask"%string] 30 disk) (str "key_0") e).
  - vm_compute. reflexivity.
  - vm_compute. reflexivity.
Defined.

(** X6. A store [Open] has returned under a name that is not the name of
    a file it has read never reads short: after any calls, [Get] returns a
    value or throws [MissingKeyException], for every key. *)
Theorem Get_never_reads_short (listing : list string) (now : Z) (disk : Disk)
    (w0 : World) (ops : list Op) (k : list byte) :
  Open listing now disk = Returns w0 ->
  segment_name now ∉ listing ->
  (exists v, Get k (run ops w0) = Value v) \/
  Get k (run ops w0) = MissingKeyException k.
Proof.
  intros Hopen Hfresh. apply Open_Returns in Hopen as [-> _].
  apply readable_Get, run_readable;
    [apply opened_synced|by apply opened_readable].
Qed.

Lemma Get_never_reads_short_witness :
  let disk : Disk :=
    {[ "1.cask"%string := encode (put_record 1 (str "k") (str "v")) ]} in
  let ops := [OpPut 5 (str "Hello") (str "val"); OpDelete 6 (str "k")] in
  (exists v, Get (str "Hello") (run ops (opened ["1.cask"%string] 2 disk))
             = Value v) \/
  Get (str "Hello") (run ops (opened ["1.cask"%string] 2 disk))
    = MissingKeyException (str "Hello").
Proof.
  intros disk ops.
  apply (Get_never_reads_short ["1.cask"%string] 2 disk).
  - vm_compute. reflexivity.
  - by_decide.
Defined.

(** X7. Calls on other keys do not change what [Get] gives for a key:
    neither the value it returns nor that it throws. *)
Theorem Get_unchanged_by_calls_on_other_keys (listing : list string) (now : Z)
    (disk : Disk) (w0 : World) (ops1 ops2 : list Op) (k : list byte) :
  Open listing now disk = Returns w0 ->
  segment_name now ∉ listing ->
  Forall (fun o => op_key o <> k) ops2 ->
  Get k (run (ops1 ++ ops2) w0) = Get k (run ops1 w0).
Proof.
  intros Hopen Hfresh Hall. apply Open_Returns in Hopen as [-> _].
  rewrite run_app. apply Get_run_frame; [| |done].
  - apply run_synced, opened_synced.
  - apply run_readable; [apply opened_synced|by apply opened_readable].
Qed.

Lemma Get_unchanged_by_calls_on_other_keys_witness :
  Get (str "a")
    (run ([OpPut 1 (str "a") (str "1")] ++
          [OpPut 2 (str "b") (str "2"); OpDelete 3 (str "b")])
       (opened [] 0 ∅)) =
  Get (str "a") (run [OpPut 1 (str "a") (str "1")] (opened [] 0 ∅)).
Proof.
  apply (Get_unchanged_by_calls_on_other_keys [] 0 ∅);
    [reflexivity|by_decide|by_decide].
Defined.

(** X8. The segment of a session is its log: after any calls the file of
    the store holds the records the calls wrote, one after the other and
    nothing else, and decodes to exactly these records; every other file
    of the directory is as it was before [Open]; and further calls only
    append. *)
Theorem session_segment_is_its_log (listing : list string) (now : Z)
    (disk : Disk) (w0 : World) (ops : list Op) :
  Open listing now disk = Returns w0 ->
  Forall op_sized ops ->
  (run ops w0).2 !! segment_name now = Some (encode_all (written ops w0)) /\
  records_in (run ops w0).2 (segment_name now) =
    with_offsets 0 (written ops w0) /\
  ~ throws_in (run ops w0).2 (segment_name now) /\
  (forall name, name <> segment_name now ->
     (run ops w0).2 !! name = disk !! name) /\
  (forall ops',
     encode_all (written ops w0) `prefix_of`
       encode_all (written (ops ++ ops') w0)).
Proof.
  intros Hopen Hsized. apply Open_Returns in Hopen as [-> _].
  split_and!.
  - apply run_opened_segment.
  - by apply records_in_session.
  - by apply session_not_throws.
  - intros name Hne. by apply run_opened_other.
  - intros ops'. rewrite written_app, encode_all_app. by eexists.
Qed.

Lemma session_segment_is_its_log_witness :
  (run [OpPut 1 (str "k") (str "v"); OpDelete 2 (str "k")]
     (opened [] 7 ∅)).2 !! segment_name 7 =
    Some (encode (put_record 1 (str "k") (str "v")) ++
          encode (put_record 2 (str "k") kTombstoneValue)).
Proof.
  rewrite (proj1 (session_segment_is_its_log [] 7 ∅ (opened [] 7 ∅)
                    [OpPut 1 (str "k") (str "v"); OpDelete 2 (str "k")]
                    eq_refl ltac:(by_decide))).
  vm_compute. reflexivity.
Defined.

(** X9. A segment has one reading: when two sequences of records, each
    followed by bytes that hold no whole record, give the same bytes, the
    records are the same and so are the bytes that follow. *)
Theorem segment_has_one_reading (es1 es2 : list CaskEntry.t)
    (tail1 tail2 : list byte) :
  Forall wf_entry es1 -> Forall wf_entry es2 ->
  parse tail1 = None -> parse tail2 = None ->
  encode_all es1 ++ tail1 = encode_all es2 ++ tail2 ->
  es1 = es2 /\ tail1 = tail2.
Proof.
  intros Hwf1 Hwf2 Ht1 Ht2 Heq.
  assert (es1 = es2) as ->.
  { rewrite <- (with_offsets_snd es1 0), <- (with_offsets_snd es2 0).
    rewrite <- (segment_records_encode_all es1 tail1) by done.
    rewrite <- (segment_records_encode_all es2 tail2) by done.
    by rewrite Heq. }
  split; [done|]. by apply app_inv_head in Heq.
Qed.

Lemma segment_has_one_reading_witness :
  [put_record 1 (str "k") (str "v")] = [put_record 1 (str "k") (str "v")] /\
  str "torn" = str "torn".
Proof.
  apply (segment_has_one_reading
           [put_record 1 (str "k") (str "v")]
           [put_record 1 (str "k") (str "v")] (str "torn") (str "torn")).
  - by_decide.
  - by_decide.
  - vm_compute. reflexivity.
  - vm_compute. reflexivity.
  - reflexivity.
Defined.

(** X10. The destructor has nothing left to write: every call has flushed
    the stream, so after any session the flush of the destructor leaves
    the directory as it is. *)
Theorem destructor_leaves_the_directory (listing : list string) (now : Z)
    (disk : Disk) (w0 : World) (ops : list Op) :
  Open listing now disk = Returns w0 ->
  Bitcask_drop (run ops w0) = (run ops w0).2.
Proof.
  intros Hopen. apply Open_Returns in Hopen as [-> _].
  unfold Bitcask_drop. apply insert_id.
  apply (run_synced ops (opened listing now disk)), opened_synced.
Qed.

Lemma destructor_leaves_the_directory_witness :
  Bitcask_drop (run [OpPut 1 (str "k") (str "v")] (opened [] 0 ∅)) =
    (run [OpPut 1 (str "k") (str "v")] (opened [] 0 ∅)).2.
Proof.
  apply (destructor_leaves_the_directory [] 0 ∅). reflexivity.
Defined.

(** X11. A key is deleted once: [Delete] of a key that was just deleted
    does nothing, and after a [Delete] no call writes a record of the key,
    tombstone or other, until a [Put] stores the key again. *)
Theorem Delete_twice (t1 t2 : Z) (k : list byte) (w : World) :
  Delete t2 k (Delete t1 k w) = Delete t1 k w /\
  (forall ops,
     Forall (fun o => ~ is_put_on k o) ops ->
     Forall (fun r => CaskEntry.key r <> k) (written ops (Delete t1 k w)) /\
     f_ (run ops (Delete t1 k w)).1 =
       f_ (Delete t1 k w).1 ++ encode_all (written ops (Delete t1 k w))).
Proof.
  split.
  - unfold Delete at 1. by rewrite Delete_lookup.
  - intros ops Hall. split; [|apply run_written].
    apply written_absent; [apply Delete_lookup|done].
Qed.

(** X12. Recovery does not follow the order of the calls when the clock
    does not advance.  After a [Put], calls on the same key whose clock
    readings are not later than that of the [Put] are skipped when the
    segment is read again: whatever they were, a further [Put] or a
    [Delete], the directory opened again, the old segments in the old
    order and the segment of the session last, gives the value of the
    first [Put]. *)
Theorem reopen_skips_calls_with_stale_clock (listing : list string) (now : Z)
    (disk : Disk) (w0 : World) (now' : Z) (t : Z) (k v : list byte)
    (ops : list Op) :
  Open listing now disk = Returns w0 ->
  segment_name now ∉ listing ->
  now' <> now ->
  Forall op_sized (OpPut t k v :: ops) ->
  v <> kTombstoneValue ->
  (forall e, key_dir_ w0.1 !! k = Some e -> KeyDirEntry.timestamp e < t) ->
  Forall (fun o => op_key o = k -> op_time o <= t) ops ->
  exists w' : World,
    Open (listing ++ [segment_name now]) now' (run (OpPut t k v :: ops) w0).2
      = Returns w' /\
    Get k w' = Value v.
Proof.
  intros Hopen Hfresh Hnow Hsized Hv Hold Hstale.
  apply Open_Returns in Hopen as [-> Hok].
  exists (opened (listing ++ [segment_name now]) now'
            (run (OpPut t k v :: ops) (opened listing now disk)).2).
  split; [by apply reopen_Open|].
  assert (key_dir_ (opened (listing ++ [segment_name now]) now'
             (run (OpPut t k v :: ops) (opened listing now disk)).2).1 !! k =
          Some (put_entry (segment_name now) 0 t k v)) as Hkd.
  { rewrite reopen_key_dir by done. cbn [written op_records app fold_records].
    apply fold_records_stale.
    - unfold load_entry. cbn [put_record CaskEntry.key CaskEntry.value].
      assert (outdated (key_dir_ (opened listing now disk).1 !! k)
                (put_record t k v) = false) as ->.
      { destruct (key_dir_ (opened listing now disk).1 !! k) as [e|] eqn:Hk;
          [|done].
        cbn [outdated put_record CaskEntry.timestamp].
        apply bool_decide_eq_false_2. specialize (Hold e eq_refl). lia. }
      rewrite decide_False by done. by rewrite lookup_insert_eq.
    - cbn [put_entry KeyDirEntry.timestamp].
      eapply Forall_impl;
        [apply (written_older ops _ k (t + 1));
         eapply Forall_impl; [exact Hstale|]; cbn beta; intros o Ho Hk;
         specialize (Ho Hk); lia|].
      cbn beta. intros r Hr Hk. specialize (Hr Hk). lia. }
  assert ((opened (listing ++ [segment_name now]) now'
             (run (OpPut t k v :: ops) (opened listing now disk)).2).2
            !! segment_name now =
          Some (encode (put_record t k v) ++
                encode_all (written ops
                              (step (opened listing now disk) (OpPut t k v)))))
    as Hfile.
  { set (w := run (OpPut t k v :: ops) (opened listing now disk)).
    unfold opened at 1, Bitcask_new. cbn [snd].
    rewrite lookup_insert_ne by (intros Heq; by apply segment_name_inj in Heq).
    unfold w. rewrite run_opened_segment.
    cbn [written op_records app]. by rewrite encode_all_cons. }
  destruct (opened (listing ++ [segment_name now]) now'
              (run (OpPut t k v :: ops) (opened listing now disk)).2)
    as [bc' disk'].
  cbn [snd] in Hfile.
  cbn [fst] in Hkd.
  destruct (encode_header (put_record t k v)
              (encode_all (written ops
                             (step (opened listing now disk) (OpPut t k v)))))
    as (_ & _ & _ & H24).
  pose proof (length_encode (put_record t k v)) as Hlen.
  cbn [put_record CaskEntry.key CaskEntry.value] in H24, Hlen.
  erewrite Get_read; [|exact Hkd|exact Hfile| |].
  - unfold put_entry, put_record, CaskEntry.ValueOffset, sizeof_int64_t,
      sizeof_size_t.
    cbn [KeyDirEntry.value_sz KeyDirEntry.value_pos CaskEntry.key].
    rewrite Nat2Z.id.
    replace (Z.to_nat (Z.of_nat 0 + (Z.of_nat 8 + Z.of_nat 8 + Z.of_nat 8
               + Z.of_nat (length k))))
      with (24 + length k)%nat by lia.
    fold (put_record t k v).
    rewrite <- drop_drop, H24, drop_app_length. by rewrite take_app_length.
  - unfold put_entry, CaskEntry.ValueOffset. cbn [KeyDirEntry.value_pos]. lia.
  - unfold put_entry, put_record, CaskEntry.ValueOffset, sizeof_int64_t,
      sizeof_size_t.
    cbn [KeyDirEntry.value_sz KeyDirEntry.value_pos CaskEntry.key].
    fold (put_record t k v). rewrite length_app, Hlen. lia.
Qed.

Lemma reopen_skips_calls_with_stale_clock_witness :
  Get (str "k") (run [OpPut 7 (str "k") (str "a"); OpDelete 7 (str "k")]
                   (opened [] 1 ∅))
    = MissingKeyException (str "k") /\
  exists w' : World,
    Open ([] ++ [segment_name 1]) 9
      (run [OpPut 7 (str "k") (str "a"); OpDelete 7 (str "k")]
         (opened [] 1 ∅)).2 = Returns w' /\
    Get (str "k") w' = Value (str "a").
Proof.
  split; [vm_compute; reflexivity|].
  apply (reopen_skips_calls_with_stale_clock [] 1 ∅ (opened [] 1 ∅) 9 7
           (str "k") (str "a") [OpDelete 7 (str "k")]).
  - reflexivity.
  - by_decide.
  - lia.
  - by_decide.
  - by_decide.
  - intros e He. vm_compute in He. discriminate.
  - by_decide.
Defined.

(** X13. Where no record is a tombstone, the latest record of a key wins:
    the KeyDir of the store [Open] returns has, for the key of every record
    of the listed files, an entry with a timestamp not earlier than that of
    the record; and the order in which the files are listed does not change
    which keys the KeyDir holds nor the timestamps of their entries, nor
    whether [Open] returns. *)
Theorem Open_keeps_greatest_timestamp (listing listing' : list string)
    (now : Z) (disk : Disk) :
  (forall name, name ∈ listing ->
     Forall (fun se : nat * CaskEntry.t =>
               CaskEntry.value se.2 <> kTombstoneValue)
       (records_in disk name)) ->
  listing ≡ₚ listing' ->
  (forall (w0 : World) name start r,
     Open listing now disk = Returns w0 ->
     name ∈ listing -> (start, r) ∈ records_in disk name ->
     exists e, key_dir_ w0.1 !! CaskEntry.key r = Some e /\
               CaskEntry.timestamp r <= KeyDirEntry.timestamp e) /\
  (forall k,
     (fun w : World => KeyDirEntry.timestamp <$> key_dir_ w.1 !! k)
       <$> Open listing now disk =
     (fun w : World => KeyDirEntry.timestamp <$> key_dir_ w.1 !! k)
       <$> Open listing' now disk).
Proof.
  intros Hall Hperm. split.
  - intros w0 name start r Hopen Hn Hin.
    apply Open_Returns in Hopen as [-> _]. rewrite opened_key_dir.
    by apply (fold_listing_covers disk listing ∅ name start r Hall).
  - intros k. rewrite !Open_outcome.
    assert (Exists (throws_in disk) listing <->
            Exists (throws_in disk) listing') as Hthrows.
    { rewrite !Exists_exists.
      split; intros (name & Hin & Hthrow); exists name; (split; [|done]);
        [by rewrite <- Hperm|by rewrite Hperm]. }
    destruct (decide (Exists (throws_in disk) listing)) as [Hthrow|Hok].
    { rewrite decide_True by by apply Hthrows. done. }
    rewrite decide_False by (intros ?; by apply Hok, Hthrows).
    cbn [fmap outcome_fmap]. f_equal.
    assert (forall name, name ∈ listing' ->
              Forall (fun se : nat * CaskEntry.t =>
                        CaskEntry.value se.2 <> kTombstoneValue)
                (records_in disk name)) as Hall'.
    { intros name Hn. apply Hall. by rewrite Hperm. }
    assert (forall name, name ∈ listing -> name ∈ listing') as Hsub
      by (intros name Hn; by rewrite <- Hperm).
    assert (forall name, name ∈ listing' -> name ∈ listing) as Hsub'
      by (intros name Hn; by rewrite Hperm).
    destruct (key_dir_ (opened listing now disk).1 !! k) as [e|] eqn:Hk;
      destruct (key_dir_ (opened listing' now disk).1 !! k) as [e'|] eqn:Hk';
      cbn [fmap option_fmap option_map]; [|exfalso..|done].
    + destruct (opened_timestamp_le listing listing' now disk k e Hall' Hsub Hk)
        as (e1 & Hk1 & Hle1).
      destruct (opened_timestamp_le listing' listing now disk k e' Hall Hsub' Hk')
        as (e2 & Hk2 & Hle2).
      rewrite Hk' in Hk1. rewrite Hk in Hk2.
      injection Hk1 as <-. injection Hk2 as <-. f_equal. lia.
    + destruct (opened_timestamp_le listing listing' now disk k e Hall' Hsub Hk)
        as (e1 & Hk1 & _). congruence.
    + destruct (opened_timestamp_le listing' listing now disk k e' Hall Hsub' Hk')
        as (e2 & Hk2 & _). congruence.
Qed.

Lemma Open_keeps_greatest_timestamp_witness :
  let disk : Disk :=
    {[ "10.cask"%string := encode (put_record 11 (str "k") (str "old"));
       "20.cask"%string := encode (put_record 21 (str "k") (str "new")) ]} in
  (fun w : World => KeyDirEntry.timestamp <$> key_dir_ w.1 !! str "k")
    <$> Open ["10.cask"; "20.cask"]%string 30 disk =
  (fun w : World => KeyDirEntry.timestamp <$> key_dir_ w.1 !! str "k")
    <$> Open ["20.cask"; "10.cask"]%string 30 disk.
Proof.
  intros disk.
  apply (Open_keeps_greatest_timestamp
           ["10.cask"; "20.cask"]%string ["20.cask"; "10.cask"]%string 30 disk).
  - apply Forall_forall. by_decide.
  - apply perm_swap.
Defined.

(** ** The name of the new segment *)

(** X14. [Open] truncates a file that has the name of the new segment,
    after it has read it: the entries of the KeyDir that point into this
    file point at nothing, and [Get] on their keys reads no byte, where
    the value was not empty. *)
Theorem Open_truncates_file_of_its_name (listing : list string) (now : Z)
    (disk : Disk) (w0 : World) (k : list byte) (e : KeyDirEntry.t) :
  Open listing now disk = Returns w0 ->
  key_dir_ w0.1 !! k = Some e ->
  KeyDirEntry.file_id e = segment_name now ->
  0 < KeyDirEntry.value_sz e ->
  w0.2 !! segment_name now = Some [] /\
  Get k w0 = ShortRead [].
Proof.
  intros Hopen Hk Hfile Hsz. apply Open_Returns in Hopen as [-> _].
  assert ((opened listing now disk).2 !! segment_name now = Some []) as Hempty
    by apply lookup_insert_eq.
  split; [done|].
  destruct (opened listing now disk) as [bc disk'].
  cbn [fst snd] in Hk, Hempty. unfold Get. rewrite Hk.
  unfold ifstream. rewrite Hfile, Hempty. unfold seekg, istream_read.
  cbn [is_fail is_data is_pos].
  destruct (decide (KeyDirEntry.value_pos e < 0)); cbn [is_fail is_data is_pos];
    [done|].
  rewrite drop_nil. rewrite decide_False by (cbn [length]; lia). done.
Qed.

Lemma Open_truncates_file_of_its_name_witness :
  let disk : Disk :=
    {[ "5.cask"%string := encode (put_record 1 (str "k") (str "v")) ]} in
  (opened ["5.cask"%string] 5 disk).2 !! segment_name 5 = Some [] /\
  Get (str "k") (opened ["5.cask"%string] 5 disk) = ShortRead [].
Proof.
  intros disk.
  apply (Open_truncates_file_of_its_name ["5.cask"%string] 5 disk
           (opened ["5.cask"%string] 5 disk) (str "k")
           (KeyDirEntry.Build "5.cask" 1 25 1)).
  - vm_compute. reflexivity.
  - vm_compute. reflexivity.
  - vm_compute. reflexivity.
  - cbn. lia.
Defined.

(** X15. The file a store writes carries the suffix [Open] looks for,
    whatever the clock reading, and stores opened at different clock
    readings write different files. *)
Theorem segment_names_are_read_and_distinct (listing : list string) (now : Z)
    (disk : Disk) (w0 : World) (ops : list Op) :
  Open listing now disk = Returns w0 ->
  extension (db_path_ (run ops w0).1) = kCaskSuffix /\
  (forall listing' now' disk' (w0' : World) ops',
     Open listing' now' disk' = Returns w0' ->
     db_path_ (run ops' w0').1 = db_path_ (run ops w0).1 ->
     now' = now).
Proof.
  intros Hopen. apply Open_Returns in Hopen as [-> _]. split.
  - rewrite run_db_path. apply extension_segment_name.
  - intros listing' now' disk' w0' ops' Hopen'.
    apply Open_Returns in Hopen' as [-> _]. rewrite !run_db_path.
    apply segment_name_inj.
Qed.

Lemma segment_names_are_read_and_distinct_witness :
  extension (db_path_ (run [OpPut 1 (str "k") (str "v")]
                         (opened [] 1698650000000000 ∅)).1) = kCaskSuffix.
Proof.
  apply (segment_names_are_read_and_distinct [] 1698650000000000 ∅).
  reflexivity.
Defined.

(** X16. What the reader of [what()] sees is the message up to the first
    NUL of the key.  For a key without a NUL it is the key between two
    fixed texts, and it tells the keys without a NUL apart; a key with a
    NUL gives the message of the part before it, cut there. *)
Theorem MissingKeyException_what_names_key :
  (forall k, Byte.x00 ∉ k ->
     MissingKeyException_what k = str "Key '" ++ k ++ str "' not found") /\
  (forall k1 k2, Byte.x00 ∉ k1 -> Byte.x00 ∉ k2 ->
     MissingKeyException_what k1 = MissingKeyException_what k2 -> k1 = k2) /\
  (forall k1 k2, Byte.x00 ∉ k1 ->
     MissingKeyException_what (k1 ++ Byte.x00 :: k2) = str "Key '" ++ k1) /\
  (forall k, Byte.x00 ∉ MissingKeyException_what k).
Proof.
  assert (forall s, Byte.x00 ∉ s -> c_str s = s) as Hid.
  { induction s as [|b s IH]; intros Hs; [done|].
    apply not_elem_of_cons in Hs as [Hb Hs]. cbn [c_str].
    rewrite decide_False by done. by rewrite IH. }
  assert (forall s1 s2, Byte.x00 ∉ s1 -> c_str (s1 ++ Byte.x00 :: s2) = s1)
    as Hcut.
  { induction s1 as [|b s1 IH]; intros s2 Hs; [done|].
    apply not_elem_of_cons in Hs as [Hb Hs]. cbn [c_str app].
    rewrite decide_False by done. by rewrite IH. }
  assert (forall k, Byte.x00 ∉ k ->
            Byte.x00 ∉ str "Key '" ++ k ++ str "' not found") as Hfree.
  { intros k Hk. rewrite !not_elem_of_app. split_and!; [|done|].
    - by_decide.
    - by_decide. }
  assert (forall k, Byte.x00 ∉ k ->
            MissingKeyException_what k = str "Key '" ++ k ++ str "' not found")
    as Hwhat.
  { intros k Hk. unfold MissingKeyException_what, MissingKeyException_message.
    by apply Hid, Hfree. }
  split_and!.
  - exact Hwhat.
  - intros k1 k2 H1 H2. rewrite !Hwhat by done. intros Heq.
    apply app_inv_head in Heq. by apply app_inv_tail in Heq.
  - intros k1 k2 Hk1.
    unfold MissingKeyException_what, MissingKeyException_message.
    rewrite <- app_assoc. cbn [app]. rewrite app_assoc. apply Hcut.
    rewrite not_elem_of_app. split; [by_decide|done].
  - intros k. unfold MissingKeyException_what.
    induction (MissingKeyException_message k) as [|b s IH];
      [apply not_elem_of_nil|].
    cbn [c_str]. case_decide; [apply not_elem_of_nil|].
    apply not_elem_of_cons. by split.
Qed.

(** ** Reading a record, whatever the bytes *)


